(** * ThreadPool.h: an interleaving model of the pool and its properties

    The header implements a fixed set of [std::jthread] workers that pull
    [std::function<void()>] closures from a mutex-protected [std::queue].
    Every closure owns (through a [std::shared_ptr]) the [std::promise] of
    the job it wraps.

    The model below is an interleaving semantics.  One scheduler choice
    ([action]) is one atomic piece of the source: a critical section under
    [m_mtx], one operation on the atomic counter, one call of a task
    closure, or one step of the destructor.  The blocking calls
    ([m_cv.wait], [jthread::join], [future::get]) are modelled by actions
    that are not enabled ([None]) while the call would block. *)

From Stdlib Require Import ZArith Lia.
From stdpp Require Import base numbers option list sets.

(** [size_t] arithmetic of [std::atomic<size_t>]: 64-bit wrap-around. *)
Definition wrap64 (z : Z) : Z := (z `mod` 2 ^ 64)%Z.

(** ** ThreadPoolTest.cpp: what the tests submit

    The tests call these on the values 1..10 that [gen_random_int]
    produces, where [int] arithmetic is exact. *)

(** [int myFunc(int a)]. *)
Definition myFunc (a : Z) : Z := (a + 1)%Z.

(** [class MyFunctObj], its [operator()] and its member [getmultiple]. *)
Record MyFunctObj := { val : Z }.

Definition MyFunctObj_call (obj : MyFunctObj) : Z := (val obj + 1)%Z.

Definition getmultiple (obj : MyFunctObj) (v : Z) : Z := (v * val obj)%Z.

Section ThreadPool.

(** Values that callables take and return, and what they may throw. *)
Context {Val Exn : Type}.

(** ** The standard-library pieces the header relies on *)

Inductive future_errc := broken_promise | promise_already_satisfied | no_state.

Inductive exception :=
| user_exception (e : Exn)
| future_error (c : future_errc).

(** The result of evaluating a C++ expression that may throw. *)
Inductive outcome (R : Type) :=
| Return (r : R)
| Throw (e : exception).
Global Arguments Return {R} r.
Global Arguments Throw {R} e.

(** The shared state behind a [std::promise] / [std::future] pair. *)
Inductive shared_state :=
| NotReady
| ReadyVoid
| ReadyValue (v : Val)
| ReadyException (e : exception).

(** All shared states of the program, indexed by handle.  They live
    outside the pool object and outlive it. *)
Abbreviation heap := (list shared_state).

(** [promise::set_value]: stores the result if the state is not ready yet,
    throws [future_error] otherwise. *)
Definition set_value (p : nat) (r : shared_state) (h : heap) : outcome heap :=
  match h !! p with
  | Some NotReady => Return (<[p := r]> h)
  | Some _ => Throw (future_error promise_already_satisfied)
  | None => Throw (future_error no_state)
  end.

(** [~promise], run when the last closure owning the promise dies: a
    state that is not ready is made ready with [broken_promise]. *)
Definition promise_destroy (p : nat) (h : heap) : heap :=
  match h !! p with
  | Some NotReady => <[p := ReadyException (future_error broken_promise)]> h
  | _ => h
  end.

(** [future::get]: [None] while the call blocks; a void or a value result
    ([Return None], [Return (Some v)]); or the stored exception. *)
Definition result_of (st : shared_state) : option (outcome (option Val)) :=
  match st with
  | NotReady => None
  | ReadyVoid => Some (Return None)
  | ReadyValue v => Some (Return (Some v))
  | ReadyException e => Some (Throw e)
  end.

Definition future_get (p : nat) (h : heap) : option (outcome (option Val)) :=
  match h !! p with
  | Some st => result_of st
  | None => Some (Throw (future_error no_state))
  end.

(** ** Jobs *)

(** A callable together with the static fact [addJob] branches on with
    [if constexpr]: whether [ret_type] is [void]. *)
Inductive callable :=
| VoidFn (f : list Val → outcome unit)
| ValueFn (f : list Val → outcome Val).

(** The closure [addJob] puts on the queue: it captures the promise, the
    callable and the arguments. *)
Record task := Task {
  promise : nat;
  fn : callable;
  args : list Val;
}.

(** [std::invoke(fn, args...)]. *)
Definition invoke (t : task) : outcome shared_state :=
  match fn t with
  | VoidFn f =>
      match f (args t) with
      | Return _ => Return ReadyVoid
      | Throw e => Throw e
      end
  | ValueFn f =>
      match f (args t) with
      | Return v => Return (ReadyValue v)
      | Throw e => Throw e
      end
  end.

(** The body of the closure (the lambda inside [addJob]): invoke, then
    [set_value].  There is no handler: whatever is thrown leaves it. *)
Definition task_body (t : task) (h : heap) : outcome heap :=
  match invoke t with
  | Return r => set_value (promise t) r h
  | Throw e => Throw e
  end.

(** ** The pool *)

(** Where a worker is in its loop. *)
Inductive worker_pc :=
| Waiting                 (* blocked in [m_cv.wait], or about to lock *)
| Dequeued (t : task)     (* after [lk.unlock()], before [m_nActive++] *)
| Invoking (t : task)     (* after [m_nActive++], inside [fn()] *)
| Returned (t : task)     (* [fn()] returned, before [m_nActive--] *)
| Exited.                 (* left the loop by [return] *)

Record jthread := JThread {
  pc : worker_pc;
  stop_requested : bool;  (* the thread's own stop source *)
}.

(** The thread that owns the pool object. *)
Inductive owner_pc :=
| Using                          (* the pool is in use *)
| Destroying (cur : option nat)  (* inside [~ThreadPool]; [Some i]: joining thread [i] *)
| Gone.                          (* the object no longer exists *)

Record state := State {
  m_threads : list jthread;
  m_tasks : list task;
  m_nActive : Z;
  shared : heap;
  owner : owner_pc;
  terminated : bool;   (* [std::terminate] has been called *)
}.

(** The constructor: [count] threads, all entering the loop; the queue is
    empty and the atomic counter is value-initialised (C++20). *)
Definition ThreadPool (count : nat) : state :=
  {| m_threads := replicate count (JThread Waiting false);
     m_tasks := [];
     m_nActive := 0%Z;
     shared := [];
     owner := Using;
     terminated := false |}.

Definition threadCount (s : state) : Z := Z.of_nat (length (m_threads s)).
Definition activeCount (s : state) : Z := m_nActive s.
Definition queuedCount (s : state) : Z := Z.of_nat (length (m_tasks s)).

(** Destroying the closures of a queue destroys their promises. *)
Definition destroy_tasks (q : list task) (h : heap) : heap :=
  foldr (λ t, promise_destroy (promise t)) h q.

(** [clearQueue]: the old queue is replaced by an empty one and dies. *)
Definition clearQueue (s : state) : state :=
  {| m_threads := m_threads s;
     m_tasks := [];
     m_nActive := m_nActive s;
     shared := destroy_tasks (m_tasks s) (shared s);
     owner := owner s;
     terminated := terminated s |}.

(** [addJob]: a fresh promise, the closure appended to the queue, the
    future (here: its handle) returned. *)
Definition addJob (c : callable) (a : list Val) (s : state) : nat * state :=
  let p := length (shared s) in
  (p, {| m_threads := m_threads s;
         m_tasks := m_tasks s ++ [Task p c a];
         m_nActive := m_nActive s;
         shared := shared s ++ [NotReady];
         owner := owner s;
         terminated := terminated s |}).

Definition set_pc (i : nat) (th : jthread) (c : worker_pc) (s : state)
    (q : list task) (n : Z) (h : heap) : state :=
  {| m_threads := <[i := JThread c (stop_requested th)]> (m_threads s);
     m_tasks := q;
     m_nActive := n;
     shared := h;
     owner := owner s;
     terminated := terminated s |}.

(** One atomic step of worker [i] (the lambda in the constructor). *)
Definition worker_step (i : nat) (s : state) : option state :=
  match m_threads s !! i with
  | None => None
  | Some th =>
      match pc th with
      | Waiting =>
          (* [m_cv.wait] returns when the queue is non-empty or a stop
             was requested; the test and the pop are under the lock *)
          match m_tasks s with
          | t :: q => Some (set_pc i th (Dequeued t) s q (m_nActive s) (shared s))
          | [] =>
              if stop_requested th
              then Some (set_pc i th Exited s [] (m_nActive s) (shared s))
              else None
          end
      | Dequeued t =>
          Some (set_pc i th (Invoking t) s (m_tasks s)
                  (wrap64 (m_nActive s + 1)%Z) (shared s))
      | Invoking t =>
          match task_body t (shared s) with
          | Return h => Some (set_pc i th (Returned t) s (m_tasks s) (m_nActive s) h)
          | Throw _ =>
              (* the exception leaves the thread's function *)
              Some {| m_threads := m_threads s;
                      m_tasks := m_tasks s;
                      m_nActive := m_nActive s;
                      shared := shared s;
                      owner := owner s;
                      terminated := true |}
          end
      | Returned t =>
          (* [m_nActive--]; the local copy of the closure dies at the end
             of the iteration *)
          Some (set_pc i th Waiting s (m_tasks s)
                  (wrap64 (m_nActive s - 1)%Z)
                  (promise_destroy (promise t) (shared s)))
      | Exited => None
      end
  end.

(** The destructor, [m_threads.clear()]: every [jthread] is destroyed in
    turn, in an order the model leaves open; [~jthread] requests the stop
    and joins.  Then the members die, the queue among them. *)
Definition all_stopped (s : state) : bool :=
  forallb stop_requested (m_threads s).

Definition with_owner (o : owner_pc) (s : state) : state :=
  {| m_threads := m_threads s;
     m_tasks := m_tasks s;
     m_nActive := m_nActive s;
     shared := shared s;
     owner := o;
     terminated := terminated s |}.

Definition dtor_enter (s : state) : option state :=
  match owner s with
  | Using => Some (with_owner (Destroying None) s)
  | _ => None
  end.

Definition dtor_request_stop (i : nat) (s : state) : option state :=
  match owner s, m_threads s !! i with
  | Destroying None, Some th =>
      if stop_requested th then None
      else Some {| m_threads := <[i := JThread (pc th) true]> (m_threads s);
                   m_tasks := m_tasks s;
                   m_nActive := m_nActive s;
                   shared := shared s;
                   owner := Destroying (Some i);
                   terminated := terminated s |}
  | _, _ => None
  end.

Definition dtor_join (s : state) : option state :=
  match owner s with
  | Destroying (Some i) =>
      match pc <$> m_threads s !! i with
      | Some Exited => Some (with_owner (Destroying None) s)
      | _ => None
      end
  | _ => None
  end.

Definition dtor_leave (s : state) : option state :=
  match owner s with
  | Destroying None =>
      if all_stopped s
      then Some {| m_threads := [];
                   m_tasks := [];
                   m_nActive := m_nActive s;
                   shared := destroy_tasks (m_tasks s) (shared s);
                   owner := Gone;
                   terminated := terminated s |}
      else None
  | _ => None
  end.

(** ** Scheduling *)

Inductive action :=
| Work (i : nat)
| AddJob (c : callable) (a : list Val)
| ClearQueue
| DtorEnter
| DtorRequestStop (i : nat)
| DtorJoin
| DtorLeave.

Definition alive (s : state) : bool :=
  match owner s with Gone => false | _ => true end.

(** After [std::terminate] nothing runs; member functions need the object. *)
Definition step (a : action) (s : state) : option state :=
  if terminated s then None else
  match a with
  | Work i => worker_step i s
  | AddJob c v => if alive s then Some (addJob c v s).2 else None
  | ClearQueue => if alive s then Some (clearQueue s) else None
  | DtorEnter => dtor_enter s
  | DtorRequestStop i => dtor_request_stop i s
  | DtorJoin => dtor_join s
  | DtorLeave => dtor_leave s
  end.

Fixpoint run (sched : list action) (s : state) : option state :=
  match sched with
  | [] => Some s
  | a :: sched' =>
      match step a s with
      | Some s' => run sched' s'
      | None => None
      end
  end.

Definition reachable (N : nat) (s : state) : Prop :=
  ∃ sched, run sched (ThreadPool N) = Some s.

(** The scheduler's choices as a relation, one constructor per atomic
    piece of the source. *)
Inductive Step : action → state → state → Prop :=
| Step_dequeue i th t q s :
    terminated s = false → m_threads s !! i = Some th → pc th = Waiting →
    m_tasks s = t :: q →
    Step (Work i) s (set_pc i th (Dequeued t) s q (m_nActive s) (shared s))
| Step_exit i th s :
    terminated s = false → m_threads s !! i = Some th → pc th = Waiting →
    m_tasks s = [] → stop_requested th = true →
    Step (Work i) s (set_pc i th Exited s [] (m_nActive s) (shared s))
| Step_count_up i th t s :
    terminated s = false → m_threads s !! i = Some th → pc th = Dequeued t →
    Step (Work i) s
      (set_pc i th (Invoking t) s (m_tasks s) (wrap64 (m_nActive s + 1)%Z) (shared s))
| Step_invoke i th t r s :
    terminated s = false → m_threads s !! i = Some th → pc th = Invoking t →
    invoke t = Return r → shared s !! promise t = Some NotReady →
    Step (Work i) s
      (set_pc i th (Returned t) s (m_tasks s) (m_nActive s) (<[promise t := r]> (shared s)))
| Step_terminate i th t e s :
    terminated s = false → m_threads s !! i = Some th → pc th = Invoking t →
    task_body t (shared s) = Throw e →
    Step (Work i) s
      {| m_threads := m_threads s; m_tasks := m_tasks s; m_nActive := m_nActive s;
         shared := shared s; owner := owner s; terminated := true |}
| Step_count_down i th t s :
    terminated s = false → m_threads s !! i = Some th → pc th = Returned t →
    Step (Work i) s
      (set_pc i th Waiting s (m_tasks s) (wrap64 (m_nActive s - 1)%Z)
         (promise_destroy (promise t) (shared s)))
| Step_add c a s :
    terminated s = false → alive s = true →
    Step (AddJob c a) s (addJob c a s).2
| Step_clear s :
    terminated s = false → alive s = true →
    Step ClearQueue s (clearQueue s)
| Step_dtor_enter s :
    terminated s = false → owner s = Using →
    Step DtorEnter s (with_owner (Destroying None) s)
| Step_dtor_stop i th s :
    terminated s = false → owner s = Destroying None →
    m_threads s !! i = Some th → stop_requested th = false →
    Step (DtorRequestStop i) s
      {| m_threads := <[i := JThread (pc th) true]> (m_threads s);
         m_tasks := m_tasks s; m_nActive := m_nActive s; shared := shared s;
         owner := Destroying (Some i); terminated := terminated s |}
| Step_dtor_join i th s :
    terminated s = false → owner s = Destroying (Some i) →
    m_threads s !! i = Some th → pc th = Exited →
    Step DtorJoin s (with_owner (Destroying None) s)
| Step_dtor_leave s :
    terminated s = false → owner s = Destroying None → all_stopped s = true →
    Step DtorLeave s
      {| m_threads := []; m_tasks := []; m_nActive := m_nActive s;
         shared := destroy_tasks (m_tasks s) (shared s);
         owner := Gone; terminated := terminated s |}.

(** ** Bookkeeping used by the invariants *)

Definition count {A} (f : A → bool) (l : list A) : nat :=
  length (filter (λ x, f x = true) l).

Definition held_task (c : worker_pc) : option task :=
  match c with
  | Dequeued t | Invoking t | Returned t => Some t
  | _ => None
  end.

(** The closures owned by workers, and all closures alive. *)
Definition in_flight (s : state) : list task :=
  omap (λ th, held_task (pc th)) (m_threads s).

Definition live_tasks (s : state) : list task := m_tasks s ++ in_flight s.

Definition is_dequeued (th : jthread) : bool :=
  match pc th with Dequeued _ => true | _ => false end.
Definition is_invoking (th : jthread) : bool :=
  match pc th with Invoking _ => true | _ => false end.
Definition is_returned (th : jthread) : bool :=
  match pc th with Returned _ => true | _ => false end.

Definition is_not_ready (st : shared_state) : bool :=
  match st with NotReady => true | _ => false end.
Definition is_fulfilled (st : shared_state) : bool :=
  match st with ReadyVoid | ReadyValue _ => true | _ => false end.
Definition is_broken (st : shared_state) : bool :=
  match st with ReadyException _ => true | _ => false end.

(** Jobs whose callable has returned and whose promise holds the result
    (what a counter incremented at the end of each job would show). *)
Definition completedCount (s : state) : nat := count is_fulfilled (shared s).
(** Jobs submitted so far: one promise per [addJob]. *)
Definition submittedCount (s : state) : nat := length (shared s).

Definition pc_ok (h : heap) (c : worker_pc) : Prop :=
  match c with
  | Dequeued t | Invoking t => h !! promise t = Some NotReady
  | Returned t => ∃ r, invoke t = Return r ∧ h !! promise t = Some r
  | _ => True
  end.

Definition stop_ok (o : owner_pc) (i : nat) (th : jthread) : Prop :=
  (pc th = Exited → stop_requested th = true) ∧
  (stop_requested th = true →
     o ≠ Using ∧ (o = Destroying (Some i) ∨ pc th = Exited)).

Record inv (N : nat) (s : state) : Prop := {
  inv_threads :
    if alive s then length (m_threads s) = N
    else m_threads s = [] ∧ m_tasks s = [];
  inv_active :
    m_nActive s =
    wrap64 (Z.of_nat (count is_invoking (m_threads s) + count is_returned (m_threads s)));
  inv_nodup : NoDup (promise <$> live_tasks s);
  inv_queued : ∀ t, t ∈ m_tasks s → shared s !! promise t = Some NotReady;
  inv_held : ∀ i th, m_threads s !! i = Some th → pc_ok (shared s) (pc th);
  inv_owned :
    ∀ p, shared s !! p = Some NotReady → p ∈ promise <$> live_tasks s;
  inv_exn :
    ∀ p e, shared s !! p = Some (ReadyException e) → e = future_error broken_promise;
  inv_stop : ∀ i th, m_threads s !! i = Some th → stop_ok (owner s) i th;
  inv_cur :
    ∀ i, owner s = Destroying (Some i) →
         ∃ th, m_threads s !! i = Some th ∧ stop_requested th = true;
  inv_count :
    count is_not_ready (shared s) =
    length (m_tasks s) + count is_dequeued (m_threads s) + count is_invoking (m_threads s);
}.

(** ** What a schedule lets one observe *)

(** The handle enqueued, resp. dequeued, by one step. *)
Definition enqueued_by (a : action) (s : state) : list nat :=
  match a with
  | AddJob c v => [(addJob c v s).1]
  | _ => []
  end.

Definition dequeued_by (a : action) (s : state) : list nat :=
  match a with
  | Work i =>
      match m_threads s !! i, m_tasks s with
      | Some th, t :: _ =>
          match pc th with Waiting => [promise t] | _ => [] end
      | _, _ => []
      end
  | _ => []
  end.

Fixpoint log (ev : action → state → list nat) (sched : list action) (s : state)
    : list nat :=
  match sched with
  | [] => []
  | a :: sched' =>
      match step a s with
      | Some s' => ev a s ++ log ev sched' s'
      | None => []
      end
  end.

(** Actions that destroy the queue, and actions of the pool's client. *)
Definition discards (a : action) : bool :=
  match a with ClearQueue | DtorLeave => true | _ => false end.

Definition submits (a : action) : bool :=
  match a with AddJob _ _ | ClearQueue => true | _ => false end.

(** What can be said of a job that is still due: its closure is alive
    and its promise not ready, or its promise holds what the callable
    returned. *)
Definition fate (t : task) (s : state) : Prop :=
  (t ∈ live_tasks s ∧ shared s !! promise t = Some NotReady) ∨
  (∃ r, invoke t = Return r ∧ shared s !! promise t = Some r).

(** The call of the job's callable comes back with a result: it neither
    throws nor blocks or loops forever.  (Callables are total functions
    here, so a call that never comes back is not among the outcomes; the
    progress statements below ask for [returns], not merely for the
    absence of an exception.) *)
Definition returns (t : task) : Prop := ∃ r, invoke t = Return r.

(** What the caller expects to read from the future of [c(a...)]: the
    value returned ([Some v]), or a plain completion ([None]) when the
    callable returns nothing; undefined when the callable throws. *)
Definition callable_result (c : callable) (a : list Val) : option (option Val) :=
  match c with
  | VoidFn f => match f a with Return _ => Some None | Throw _ => None end
  | ValueFn f => match f a with Return v => Some (Some v) | Throw _ => None end
  end.

Definition broken : shared_state := ReadyException (future_error broken_promise).

Definition some_worker_in_loop (s : state) : Prop :=
  ∃ i th, m_threads s !! i = Some th ∧ pc th ≠ Exited.

(** The claim that a failure of the callable is caught and stored: worker
    [i], about to run [t], steps to a state where the pool lives on, the
    future of [t] holds the exception and the worker has left the job. *)
Definition failure_captured (s : state) (i : nat) (t : task) (e : exception) : Prop :=
  ∃ s', step (Work i) s = Some s' ∧
        terminated s' = false ∧
        future_get (promise t) (shared s') = Some (Throw e) ∧
        (pc <$> m_threads s' !! i = Some (Returned t) ∨
         pc <$> m_threads s' !! i = Some Waiting).

(** The number of pending/running/finished jobs as the introspection
    functions and a completion counter report them. *)
Definition accounted (s : state) : Z :=
  (activeCount s + queuedCount s + Z.of_nat (completedCount s))%Z.

(** A measure that every step of a worker or of the destructor lowers. *)
Definition weight (th : jthread) : nat :=
  match pc th with
  | Waiting => 1
  | Dequeued _ => 4
  | Invoking _ => 3
  | Returned _ => 2
  | Exited => 0
  end.

Definition is_unstopped (th : jthread) : bool := negb (stop_requested th).

Definition measure (s : state) : nat :=
  4 * length (m_tasks s) + sum_list_with weight (m_threads s)
  + 2 * count is_unstopped (m_threads s)
  + match owner s with
    | Using => 3
    | Destroying (Some _) => 2
    | Destroying None => 1
    | Gone => 0
    end.

(** Sample callables. *)
Definition noop : callable := VoidFn (λ _, Return ()).
Definition constant (v : Val) : callable := ValueFn (λ _, Return v).
Definition thrower (e : Exn) : callable := ValueFn (λ _, Throw (user_exception e)).

(** The state a schedule leads to, for examples ([ThreadPool 0] when the
    schedule cannot run). *)
Definition after (sched : list action) (N : nat) : state :=
  default (ThreadPool 0) (run sched (ThreadPool N)).

(** Once every worker has left, only closures submitted after [K]
    promises had been created can be in the queue. *)
Definition late_only (K : nat) (s : state) : Prop :=
  K ≤ length (shared s) ∧
  ((∀ th, th ∈ m_threads s → pc th = Exited) →
   ∀ u, u ∈ m_tasks s → K ≤ promise u).

(** A pool in which the destructor can always make progress. *)
Definition good (N : nat) (s : state) : Prop :=
  inv N s ∧ terminated s = false ∧ ∀ t, t ∈ live_tasks s → returns t.

(** ** Further bookkeeping *)

(** The handle whose callable one step invokes. *)
Definition invoked_by (a : action) (s : state) : list nat :=
  match a with
  | Work i =>
      match m_threads s !! i with
      | Some th => match pc th with Invoking t => [promise t] | _ => [] end
      | None => []
      end
  | _ => []
  end.

(** How far the owner is with the pool. *)
Definition phase (o : owner_pc) : nat :=
  match o with Using => 0 | Destroying _ => 1 | Gone => 2 end.

Definition is_waiting (th : jthread) : bool :=
  match pc th with Waiting => true | _ => false end.


Definition is_add (a : action) : bool :=
  match a with AddJob _ _ => true | _ => false end.


(** The handle of the job a worker has in hand after a step in which it
    left the wait: read off the worker's state after the step
    ([fn = m_tasks.front()]), not off the queue before it. *)
Definition taken_by (a : action) (s : state) : list nat :=
  match a with
  | Work i =>
      match m_threads s !! i, step a s with
      | Some th, Some s' =>
          match pc th, pc <$> m_threads s' !! i with
          | Waiting, Some (Dequeued t) => [promise t]
          | _, _ => []
          end
      | _, _ => []
      end
  | _ => []
  end.


(** ** Basic facts *)

Lemma step_Step a s s' : step a s = Some s' → Step a s s'.
Proof.
  unfold step. destruct (terminated s) eqn:Ht; [done|].
  destruct a as [i|c v| | |i| |]; simpl.
  - unfold worker_step.
    destruct (m_threads s !! i) as [th|] eqn:Hth; [|done].
    destruct (pc th) as [|t|t|t|] eqn:Hpc; try done.
    + destruct (m_tasks s) as [|t q] eqn:Hq.
      * destruct (stop_requested th) eqn:Hs; [|done].
        intros [= <-]. by eapply Step_exit.
      * intros [= <-]. by eapply Step_dequeue.
    + intros [= <-]. by eapply Step_count_up.
    + destruct (task_body t (shared s)) as [h|e] eqn:Hb.
      * intros [= <-]. unfold task_body in Hb.
        destruct (invoke t) as [r|] eqn:Hi; [|done].
        unfold set_value in Hb.
        destruct (shared s !! promise t) as [[]|] eqn:Hp; try done.
        injection Hb as <-. by eapply Step_invoke.
      * intros [= <-]. by eapply Step_terminate.
    + intros [= <-]. by eapply Step_count_down.
  - destruct (alive s) eqn:Ha; [|done]. intros [= <-]. by constructor.
  - destruct (alive s) eqn:Ha; [|done]. intros [= <-]. by constructor.
  - unfold dtor_enter. destruct (owner s) eqn:Ho; try done.
    intros [= <-]. by constructor.
  - unfold dtor_request_stop. destruct (owner s) as [|[j|]|] eqn:Ho; try done.
    destruct (m_threads s !! i) as [th|] eqn:Hth; [|done].
    destruct (stop_requested th) eqn:Hs; [done|].
    intros [= <-]. by eapply Step_dtor_stop.
  - unfold dtor_join. destruct (owner s) as [|[j|]|] eqn:Ho; try done.
    destruct (m_threads s !! j) as [th|] eqn:Hth; simpl; [|done].
    destruct (pc th) eqn:Hpc; try done.
    intros [= <-]. by eapply Step_dtor_join.
  - unfold dtor_leave. destruct (owner s) as [|[j|]|] eqn:Ho; try done.
    destruct (all_stopped s) eqn:Hs; [|done].
    intros [= <-]. by constructor.
Qed.

(** *** Lists *)

Lemma lookup_split {A} (l : list A) i x :
  l !! i = Some x →
  ∃ l1 l2, l = l1 ++ x :: l2 ∧ length l1 = i ∧ ∀ y, <[i := y]> l = l1 ++ y :: l2.
Proof.
  intros Hi. exists (take i l), (drop (S i) l).
  pose proof (lookup_lt_Some _ _ _ Hi) as Hlt.
  split; [by rewrite take_drop_middle|].
  split; [rewrite length_take; lia|].
  intros y. by rewrite insert_take_drop.
Qed.

Lemma count_nil {A} (f : A → bool) : count f [] = 0.
Proof. done. Qed.

Lemma count_cons {A} (f : A → bool) x l :
  count f (x :: l) = (if f x then 1 else 0) + count f l.
Proof.
  unfold count. rewrite filter_cons.
  destruct (f x); by case_decide.
Qed.

Lemma count_app {A} (f : A → bool) l1 l2 :
  count f (l1 ++ l2) = count f l1 + count f l2.
Proof. unfold count. by rewrite filter_app, length_app. Qed.


Lemma count_two_le_length {A} (f g : A → bool) l :
  (∀ x, f x = true → g x = false) → count f l + count g l ≤ length l.
Proof.
  intros Hfg. induction l as [|x l IH]; [done|].
  rewrite !count_cons. simpl. specialize (Hfg x).
  destruct (f x), (g x); first [lia | by specialize (Hfg eq_refl)].
Qed.

Lemma count_insert {A} (f : A → bool) l i x y :
  l !! i = Some x →
  count f (<[i := y]> l) + (if f x then 1 else 0) =
  count f l + (if f y then 1 else 0).
Proof.
  intros (l1 & l2 & -> & _ & Hins)%lookup_split. rewrite Hins.
  rewrite !count_app, !count_cons. lia.
Qed.

(** *** The heap *)

Lemma wrap64_succ n : wrap64 (wrap64 (Z.of_nat n) + 1) = wrap64 (Z.of_nat (S n)).
Proof.
  unfold wrap64. rewrite Zplus_mod_idemp_l. f_equal. lia.
Qed.

Lemma wrap64_pred n : wrap64 (wrap64 (Z.of_nat (S n)) - 1) = wrap64 (Z.of_nat n).
Proof.
  unfold wrap64. rewrite Zminus_mod_idemp_l. f_equal. lia.
Qed.

Lemma invoke_ready t r : invoke t = Return r → is_fulfilled r = true.
Proof.
  unfold invoke. destruct (fn t) as [f|f]; destruct (f (args t)); try done; by intros [= <-].
Qed.

Lemma promise_destroy_length p h : length (promise_destroy p h) = length h.
Proof.
  unfold promise_destroy. destruct (h !! p) as [[]|]; by rewrite ?length_insert.
Qed.

Lemma promise_destroy_lookup_ne p q h :
  p ≠ q → promise_destroy p h !! q = h !! q.
Proof.
  intros. unfold promise_destroy.
  destruct (h !! p) as [[]|]; by rewrite ?list_lookup_insert_ne.
Qed.

Lemma promise_destroy_ready p h st :
  h !! p = Some st → st ≠ NotReady → promise_destroy p h = h.
Proof. unfold promise_destroy. intros -> ?. by destruct st. Qed.

Lemma promise_destroy_not_ready p h :
  h !! p = Some NotReady →
  promise_destroy p h = <[p := ReadyException (future_error broken_promise)]> h.
Proof. unfold promise_destroy. by intros ->. Qed.

Lemma destroy_tasks_length q h : length (destroy_tasks q h) = length h.
Proof.
  induction q as [|t q IH]; simpl; [done|]. by rewrite promise_destroy_length.
Qed.

Lemma destroy_tasks_lookup_other q h p :
  p ∉ promise <$> q → destroy_tasks q h !! p = h !! p.
Proof.
  induction q as [|t q IH]; csimpl; [done|].
  rewrite not_elem_of_cons. intros [Hne Hq].
  rewrite promise_destroy_lookup_ne by done. by apply IH.
Qed.

Lemma destroy_tasks_lookup_queued q h t :
  NoDup (promise <$> q) → t ∈ q → h !! promise t = Some NotReady →
  destroy_tasks q h !! promise t = Some (ReadyException (future_error broken_promise)).
Proof.
  induction q as [|u q IH]; csimpl; [by intros _ ?%elem_of_nil|].
  rewrite NoDup_cons. intros [Hu Hq] Ht Hh.
  destruct (decide (promise u = promise t)) as [Heq|Hne].
  - rewrite Heq. rewrite promise_destroy_not_ready.
    + apply list_lookup_insert_eq. rewrite destroy_tasks_length.
      by eapply lookup_lt_Some.
    + rewrite destroy_tasks_lookup_other by congruence. done.
  - rewrite promise_destroy_lookup_ne by done.
    apply elem_of_cons in Ht as [->|Ht]; [done|]. by apply IH.
Qed.

Lemma destroy_tasks_lookup q h p st :
  destroy_tasks q h !! p = Some st →
  h !! p = Some st ∨
  (h !! p = Some NotReady ∧ st = ReadyException (future_error broken_promise)
   ∧ p ∈ promise <$> q).
Proof.
  revert st. induction q as [|t q IH]; csimpl; intros st; [by left|].
  assert (destroy_tasks q h !! p = Some st →
    h !! p = Some st ∨
    (h !! p = Some NotReady ∧ st = ReadyException (future_error broken_promise)
     ∧ p ∈ promise t :: (promise <$> q))) as IH'.
  { intros [?|(?&?&?)]%IH; [by left|right]. split_and!; [done..|by right]. }
  unfold promise_destroy at 1.
  destruct (destroy_tasks q h !! promise t) as [[]|] eqn:Ht; try done.
  destruct (decide (promise t = p)) as [<-|Hne].
  - rewrite list_lookup_insert_eq by (by eapply lookup_lt_Some).
    intros [= <-]. apply IH in Ht as [?|(?&?&?)]; [|done].
    right. split_and!; [done..|by left].
  - by rewrite list_lookup_insert_ne.
Qed.

Lemma destroy_tasks_count q h :
  NoDup (promise <$> q) → (∀ t, t ∈ q → h !! promise t = Some NotReady) →
  count is_not_ready (destroy_tasks q h) + length q = count is_not_ready h.
Proof.
  induction q as [|t q IH]; csimpl; [intros; lia|].
  rewrite NoDup_cons. intros [Ht Hq] Hh.
  assert (∀ u, u ∈ q → h !! promise u = Some NotReady) as Hh'.
  { intros u Hu. apply Hh. by right. }
  assert (destroy_tasks q h !! promise t = Some NotReady) as Hl.
  { rewrite destroy_tasks_lookup_other by done. apply Hh. by left. }
  rewrite promise_destroy_not_ready by done.
  pose proof (count_insert is_not_ready _ _ _
    (ReadyException (future_error broken_promise)) Hl) as Hc. simpl in Hc.
  specialize (IH Hq Hh'). lia.
Qed.

(** *** Preservation of the invariant, field by field *)

Lemma inv_init N : inv N (ThreadPool N).
Proof.
  assert (∀ f, (∀ b, f (JThread Waiting b) = false) →
               count f (replicate N (JThread Waiting false)) = 0) as Hc.
  { intros f Hf. induction N as [|n IH]; [done|].
    simpl. rewrite count_cons, Hf. done. }
  split; simpl; try done.
  - by rewrite length_replicate.
  - by rewrite !Hc.
  - unfold live_tasks, in_flight. simpl.
    clear Hc. induction N as [|n IH]; simpl; [apply NoDup_nil_2|apply IH].
  - intros t Ht. by apply elem_of_nil in Ht.
  - intros i th [-> _]%lookup_replicate_1. done.
  - intros i th [-> _]%lookup_replicate_1. done.
  - by rewrite !Hc.
Qed.

Lemma all_exited s N :
  inv N s → owner s = Destroying None → all_stopped s = true →
  ∀ th, th ∈ m_threads s → pc th = Exited.
Proof.
  intros Hinv Ho Hall th [i Hi]%list_elem_of_lookup.
  destruct (inv_stop _ _ Hinv i th Hi) as [_ Hs].
  unfold all_stopped in Hall. rewrite forallb_forall in Hall.
  destruct Hs as [_ [Hs|Hs]]; [|by rewrite Ho in Hs|done].
  apply Hall. apply list_elem_of_In. by eapply list_elem_of_lookup_2.
Qed.

Lemma all_exited_in_flight s :
  (∀ th, th ∈ m_threads s → pc th = Exited) → in_flight s = [].
Proof.
  unfold in_flight. induction (m_threads s) as [|th l IH]; [done|].
  intros Hex. csimpl. rewrite (Hex th) by left. simpl.
  apply IH. intros. apply Hex. by right.
Qed.

Lemma all_exited_count s :
  (∀ th, th ∈ m_threads s → pc th = Exited) →
  count is_dequeued (m_threads s) = 0 ∧
  count is_invoking (m_threads s) = 0 ∧
  count is_returned (m_threads s) = 0.
Proof.
  induction (m_threads s) as [|th l IH]; [done|]. intros Hex.
  rewrite !count_cons. unfold is_dequeued at 1, is_invoking at 1, is_returned at 1.
  rewrite (Hex th) by left. simpl. apply IH. intros. apply Hex. by right.
Qed.

Ltac thread_counts Hth c :=
  pose proof (count_insert is_dequeued _ _ _ c Hth);
  pose proof (count_insert is_invoking _ _ _ c Hth);
  pose proof (count_insert is_returned _ _ _ c Hth);
  unfold is_dequeued, is_invoking, is_returned in *; simpl in *.

Lemma inv_threads_step N a s s' :
  inv N s → Step a s s' →
  if alive s' then length (m_threads s') = N
  else m_threads s' = [] ∧ m_tasks s' = [].
Proof.
  intros [Hlen _ _ _ _ _ _ _ _ _] Hstep. unfold alive in *.
  destruct Hstep; unfold alive in *; simpl in *; rewrite ?length_insert;
    destruct (owner s) eqn:Ho; simpl in *; try done;
    destruct Hlen as [Hnil _]; rewrite Hnil in *; done.
Qed.

Lemma inv_active_step N a s s' :
  inv N s → Step a s s' →
  m_nActive s' =
  wrap64 (Z.of_nat (count is_invoking (m_threads s') + count is_returned (m_threads s'))).
Proof.
  intros Hinv Hstep. pose proof (inv_active _ _ Hinv) as Hact.
  destruct Hstep as [i th t q s ? Hth Hpc| i th s ? Hth Hpc| i th t s ? Hth Hpc
                    | i th t r s ? Hth Hpc| | i th t s ? Hth Hpc| | | | i th s ? ? Hth | | s ? Ho Hall];
    simpl; try done.
  - thread_counts Hth (JThread (Dequeued t) (stop_requested th)).
    rewrite Hpc in *. rewrite Hact. f_equal. lia.
  - thread_counts Hth (JThread Exited (stop_requested th)).
    rewrite Hpc in *. rewrite Hact. f_equal. lia.
  - thread_counts Hth (JThread (Invoking t) (stop_requested th)).
    rewrite Hpc in *. rewrite Hact, wrap64_succ. f_equal. lia.
  - thread_counts Hth (JThread (Returned t) (stop_requested th)).
    rewrite Hpc in *. rewrite Hact. f_equal. lia.
  - thread_counts Hth (JThread Waiting (stop_requested th)).
    rewrite Hpc in *. rewrite Hact.
    replace (count (λ th0, match pc th0 with Invoking _ => true | _ => false end) (m_threads s)
             + count (λ th0, match pc th0 with Returned _ => true | _ => false end) (m_threads s))
      with (S (count (λ th0, match pc th0 with Invoking _ => true | _ => false end)
                 (<[i:=JThread Waiting (stop_requested th)]> (m_threads s))
               + count (λ th0, match pc th0 with Returned _ => true | _ => false end)
                   (<[i:=JThread Waiting (stop_requested th)]> (m_threads s)))) by lia.
    by rewrite wrap64_pred.
  - thread_counts Hth (JThread (pc th) true).
    rewrite Hact. f_equal. destruct (pc th); lia.
  - (* leaving the destructor: every thread has exited *)
    rewrite Hact.
    destruct (all_exited_count s (all_exited s N Hinv Ho Hall)) as (_ & -> & ->).
    by rewrite count_nil.
Qed.

Lemma inv_stop_step N a s s' :
  inv N s → Step a s s' →
  ∀ j th', m_threads s' !! j = Some th' → stop_ok (owner s') j th'.
Proof.
  intros Hinv Hstep. pose proof (inv_stop _ _ Hinv) as Hstop.
  destruct Hstep as [i th t q s ? Hth Hpc| i th s ? Hth Hpc| i th t s ? Hth Hpc
                    | i th t r s ? Hth Hpc| | i th t s ? Hth Hpc| | |s ? Ho
                    | i th s ? Ho Hth Hs | i th s ? Ho Hth Hpc | ];
    simpl; try done;
    try (intros j th' [(-> & <- & _)|(Hne & Hj)]%list_lookup_insert_Some;
         [|by apply Hstop];
         destruct (Hstop _ _ Hth) as [Hs1 Hs2]; unfold stop_ok; simpl;
         rewrite Hpc in Hs1, Hs2; intuition congruence).
  - intros j th' Hj. destruct (Hstop _ _ Hj) as [H1 H2]. rewrite Ho in H2.
    split; [done|]. intros Hs. by destruct (H2 Hs).
  - intros j th' [(-> & <- & _)|(Hne & Hj)]%list_lookup_insert_Some.
    + split; simpl; [done|]. intros _. split; [done|by left].
    + destruct (Hstop _ _ Hj) as [H1 H2]. rewrite Ho in H2.
      split; [done|]. intros Hs'. split; [done|]. right.
      destruct (H2 Hs') as [_ [?|?]]; [done|done].
  - intros j th' Hj. destruct (Hstop _ _ Hj) as [H1 H2]. rewrite Ho in H2.
    split; [done|]. intros Hs'. split; [done|]. right.
    destruct (H2 Hs') as [_ [[= ->]|?]]; [|done]. congruence.
Qed.

Lemma inv_cur_step N a s s' :
  inv N s → Step a s s' →
  ∀ j, owner s' = Destroying (Some j) →
       ∃ th', m_threads s' !! j = Some th' ∧ stop_requested th' = true.
Proof.
  intros Hinv Hstep. pose proof (inv_cur _ _ Hinv) as Hcur.
  destruct Hstep as [i th t q s ? Hth Hpc| i th s ? Hth Hpc| i th t s ? Hth Hpc
                    | i th t r s ? Hth Hpc| | i th t s ? Hth Hpc| | |s ? Ho
                    | i th s ? Ho Hth Hs | i th s ? Ho Hth Hpc | ];
    simpl; try done;
    try (intros j Hj; destruct (Hcur j Hj) as (th0 & Hth0 & Hs0);
         destruct (decide (i = j)) as [->|Hne];
         [ eexists; split;
           [apply list_lookup_insert_eq; by eapply lookup_lt_Some|simpl; congruence]
         | exists th0; by rewrite list_lookup_insert_ne ]).
  intros j [= <-]. eexists.
  split; [apply list_lookup_insert_eq; by eapply lookup_lt_Some|done].
Qed.

Lemma inv_exn_step N a s s' :
  inv N s → Step a s s' →
  ∀ p e, shared s' !! p = Some (ReadyException e) → e = future_error broken_promise.
Proof.
  intros Hinv Hstep. pose proof (inv_exn _ _ Hinv) as Hexn.
  destruct Hstep as [ | | | i th t r s ? Hth Hpc Hinvoke Hp | | i th t s ? Hth Hpc
                    | c a s | s | | | | s ]; simpl; try done.
  - intros p e [(_ & -> & _)|(Hne & Hj)]%list_lookup_insert_Some; [|by eapply Hexn].
    by apply invoke_ready in Hinvoke.
  - intros p e. unfold promise_destroy.
    destruct (shared s !! promise t) as [[]|]; try by apply Hexn.
    intros [(_ & [= <-] & _)|(Hne & Hj)]%list_lookup_insert_Some; [done|by eapply Hexn].
  - intros p e [?|[_ Hp]]%lookup_app_Some; [by eapply Hexn|].
    by destruct (p - length (shared s)) as [|[|]].
  - intros p e [?|(_ & [= ->] & _)]%destroy_tasks_lookup; [by eapply Hexn|done].
  - intros p e [?|(_ & [= ->] & _)]%destroy_tasks_lookup; [by eapply Hexn|done].
Qed.

(** *** Who owns which closure *)

Lemma in_flight_lookup s i th t :
  m_threads s !! i = Some th → held_task (pc th) = Some t → t ∈ in_flight s.
Proof.
  intros Hi Ht. apply list_elem_of_omap. exists th.
  split; [by eapply list_elem_of_lookup_2|done].
Qed.

Lemma in_flight_elem s t :
  t ∈ in_flight s →
  ∃ i th, m_threads s !! i = Some th ∧ held_task (pc th) = Some t.
Proof.
  intros (th & [i Hi]%list_elem_of_lookup & Ht)%list_elem_of_omap. eauto.
Qed.

Lemma flights_insert (ths : list jthread) i th th' :
  ths !! i = Some th →
  option_list (held_task (pc th)) ++ omap (λ th, held_task (pc th)) (<[i := th']> ths)
  ≡ₚ option_list (held_task (pc th')) ++ omap (λ th, held_task (pc th)) ths.
Proof.
  intros (l1 & l2 & -> & _ & Hins)%lookup_split. rewrite Hins.
  rewrite !omap_app. csimpl.
  destruct (held_task (pc th)), (held_task (pc th')); simpl; solve_Permutation.
Qed.

Lemma sep_queue_held s u j th t :
  NoDup (promise <$> live_tasks s) →
  u ∈ m_tasks s → m_threads s !! j = Some th → held_task (pc th) = Some t →
  promise u ≠ promise t.
Proof.
  unfold live_tasks. rewrite fmap_app, NoDup_app. intros (_ & Hsep & _) Hu Hj Ht Heq.
  apply (Hsep (promise u)).
  - by apply list_elem_of_fmap_2.
  - rewrite Heq. apply list_elem_of_fmap_2. by eapply in_flight_lookup.
Qed.

Lemma sep_held_held s i j th th' t t' :
  NoDup (promise <$> live_tasks s) → i ≠ j →
  m_threads s !! i = Some th → m_threads s !! j = Some th' →
  held_task (pc th) = Some t → held_task (pc th') = Some t' →
  promise t ≠ promise t'.
Proof.
  unfold live_tasks, in_flight. rewrite fmap_app, NoDup_app.
  intros (_ & _ & Hnd) Hne Hi Hj Ht Ht' Heq.
  destruct (lookup_split _ _ _ Hi) as (l1 & l2 & Hths & Hlen & _).
  rewrite Hths in Hnd, Hj. rewrite omap_app in Hnd. csimpl in Hnd.
  rewrite Ht in Hnd. rewrite fmap_app, fmap_cons in Hnd.
  apply NoDup_app in Hnd as (_ & Hsep & [Hnotin _]%NoDup_cons).
  apply lookup_app_Some in Hj as [Hj|[Hge Hj]].
  - apply (Hsep (promise t')); [|rewrite <- Heq; by left].
    apply list_elem_of_fmap_2, list_elem_of_omap. exists th'.
    split; [by eapply list_elem_of_lookup_2|done].
  - destruct (j - length l1) as [|k] eqn:Hk; [lia|]. simpl in Hj.
    apply Hnotin. rewrite Heq.
    apply list_elem_of_fmap_2, list_elem_of_omap. exists th'.
    split; [by eapply list_elem_of_lookup_2|done].
Qed.

Lemma owned_lt N s p :
  inv N s → p ∈ promise <$> live_tasks s → p < length (shared s).
Proof.
  intros Hinv (t & -> & [Ht|Ht]%elem_of_app)%list_elem_of_fmap.
  - eapply lookup_lt_Some. by apply (inv_queued _ _ Hinv).
  - apply in_flight_elem in Ht as (i & th & Hi & Ht).
    pose proof (inv_held _ _ Hinv i th Hi) as Hok.
    destruct (pc th); simplify_eq/=; [by eapply lookup_lt_Some..|].
    destruct Hok as (r & _ & Hr). by eapply lookup_lt_Some.
Qed.



Lemma flights_keep (ths : list jthread) i th th' :
  ths !! i = Some th → held_task (pc th') = held_task (pc th) →
  omap (λ th, held_task (pc th)) (<[i := th']> ths)
  ≡ₚ omap (λ th, held_task (pc th)) ths.
Proof.
  intros Hi Heq. pose proof (flights_insert _ _ _ th' Hi) as Hp.
  rewrite Heq in Hp. by apply Permutation_app_inv_l in Hp.
Qed.

Lemma flights_take (ths : list jthread) i th th' t :
  ths !! i = Some th → held_task (pc th) = None → held_task (pc th') = Some t →
  omap (λ th, held_task (pc th)) (<[i := th']> ths)
  ≡ₚ t :: omap (λ th, held_task (pc th)) ths.
Proof.
  intros Hi Hn Ht. pose proof (flights_insert _ _ _ th' Hi) as Hp.
  by rewrite Hn, Ht in Hp.
Qed.

Lemma flights_drop (ths : list jthread) i th th' t :
  ths !! i = Some th → held_task (pc th) = Some t → held_task (pc th') = None →
  t :: omap (λ th, held_task (pc th)) (<[i := th']> ths)
  ≡ₚ omap (λ th, held_task (pc th)) ths.
Proof.
  intros Hi Ht Hn. pose proof (flights_insert _ _ _ th' Hi) as Hp.
  by rewrite Hn, Ht in Hp.
Qed.

Lemma inv_nodup_step N a s s' :
  inv N s → Step a s s' → NoDup (promise <$> live_tasks s').
Proof.
  intros Hinv Hstep. pose proof (inv_nodup _ _ Hinv) as Hnd.
  destruct Hstep as [i th t q s ? Hth Hpc Hq| i th s ? Hth Hpc Hq| i th t s ? Hth Hpc
                    | i th t r s ? Hth Hpc| | i th t s ? Hth Hpc| c v s | s | s
                    | i th s ? Ho Hth Hs | | s ];
    unfold live_tasks, in_flight in *; simpl; try done.
  - rewrite (flights_take _ _ th _ t) by (done || by rewrite Hpc).
    rewrite <- Permutation_middle. by rewrite Hq in Hnd.
  - rewrite (flights_keep _ _ th) by (done || by rewrite Hpc).
    by rewrite Hq in Hnd.
  - rewrite (flights_keep _ _ th) by (done || by rewrite Hpc). done.
  - rewrite (flights_keep _ _ th) by (done || by rewrite Hpc). done.
  - rewrite <- (flights_drop _ i th (JThread Waiting (stop_requested th)) t) in Hnd
      by (done || by rewrite Hpc).
    rewrite <- Permutation_middle, fmap_cons in Hnd. by apply NoDup_cons in Hnd as [_ ?].
  - assert (∀ (x : task) q F, (q ++ [x]) ++ F ≡ₚ x :: (q ++ F)) as Hperm
      by (intros; solve_Permutation).
    rewrite Hperm, fmap_cons.
    apply NoDup_cons. split; [|done]. simpl.
    intros Hin%(owned_lt N s); [lia|done].
  - rewrite fmap_app in Hnd. by apply NoDup_app in Hnd as (_ & _ & ?).
  - rewrite (flights_keep _ _ th) by done. done.
  - apply NoDup_nil_2.
Qed.

Lemma inv_queued_step N a s s' :
  inv N s → Step a s s' →
  ∀ u, u ∈ m_tasks s' → shared s' !! promise u = Some NotReady.
Proof.
  intros Hinv Hstep. pose proof (inv_queued _ _ Hinv) as Hq.
  destruct Hstep as [i th t q s ? Hth Hpc Hqs| i th s ? Hth Hpc Hqs| i th t s ? Hth Hpc
                    | i th t r s ? Hth Hpc Hinvoke Hp| | i th t s ? Hth Hpc| c v s | s | s
                    | i th s ? Ho Hth Hs | | s ];
    simpl; try done.
  - intros u Hu. apply Hq. rewrite Hqs. by right.
  - by intros u ?%elem_of_nil.
  - intros u Hu. rewrite list_lookup_insert_ne; [by apply Hq|].
    intros Heq. eapply (sep_queue_held s u i th t); eauto using inv_nodup.
    by rewrite Hpc.
  - intros u Hu. pose proof (inv_held _ _ Hinv i th Hth) as Hok.
    rewrite Hpc in Hok. destruct Hok as (r & Hr & Hpr).
    rewrite (promise_destroy_ready _ _ r); [by apply Hq|done|].
    apply invoke_ready in Hr. by destruct r.
  - intros u [Hu|Hu%list_elem_of_singleton]%elem_of_app.
    + apply lookup_app_l_Some. by apply Hq.
    + subst u. simpl. by rewrite lookup_app_r, Nat.sub_diag.
  - by intros u ?%elem_of_nil.
  - by intros u ?%elem_of_nil.
Qed.

Lemma pc_ok_insert_ne (h : heap) c p r :
  (∀ t, held_task c = Some t → promise t ≠ p) → pc_ok h c → pc_ok (<[p := r]> h) c.
Proof.
  intros Hne. destruct c as [|t|t|t|]; simpl; try done.
  - intros ?. rewrite list_lookup_insert_ne; [done|]. intros ->. by eapply Hne.
  - intros ?. rewrite list_lookup_insert_ne; [done|]. intros ->. by eapply Hne.
  - intros (r' & ? & ?). exists r'. split; [done|].
    rewrite list_lookup_insert_ne; [done|]. intros ->. by eapply Hne.
Qed.

Lemma pc_ok_app (h : heap) c k : pc_ok h c → pc_ok (h ++ k) c.
Proof.
  destruct c as [|t|t|t|]; simpl; try done.
  - by apply lookup_app_l_Some.
  - by apply lookup_app_l_Some.
  - intros (r & ? & ?). exists r. split; [done|]. by apply lookup_app_l_Some.
Qed.

Lemma pc_ok_destroy_tasks (h : heap) c q :
  (∀ t, held_task c = Some t → promise t ∉ promise <$> q) →
  pc_ok h c → pc_ok (destroy_tasks q h) c.
Proof.
  intros Hne. destruct c as [|t|t|t|]; simpl; try done.
  - intros ?. rewrite destroy_tasks_lookup_other; [done|]. by apply Hne.
  - intros ?. rewrite destroy_tasks_lookup_other; [done|]. by apply Hne.
  - intros (r & ? & ?). exists r. split; [done|].
    rewrite destroy_tasks_lookup_other; [done|]. by apply Hne.
Qed.

Lemma returned_ready N s i th t :
  inv N s → m_threads s !! i = Some th → pc th = Returned t →
  promise_destroy (promise t) (shared s) = shared s.
Proof.
  intros Hinv Hth Hpc. pose proof (inv_held _ _ Hinv i th Hth) as Hok.
  rewrite Hpc in Hok. destruct Hok as (r & Hr & Hpr).
  rewrite (promise_destroy_ready _ _ r); [done..|].
  apply invoke_ready in Hr. by destruct r.
Qed.

Lemma inv_held_step N a s s' :
  inv N s → Step a s s' →
  ∀ j th', m_threads s' !! j = Some th' → pc_ok (shared s') (pc th').
Proof.
  intros Hinv Hstep. pose proof (inv_held _ _ Hinv) as Hheld.
  pose proof (inv_nodup _ _ Hinv) as Hnd.
  destruct Hstep as [i th t q s ? Hth Hpc Hqs| i th s ? Hth Hpc Hqs| i th t s ? Hth Hpc
                    | i th t r s ? Hth Hpc Hinvoke Hp| | i th t s ? Hth Hpc| c v s | s | s
                    | i th s ? Ho Hth Hs | | s ];
    simpl; try done.
  - intros j th' [(-> & <- & _)|(Hne & Hj)]%list_lookup_insert_Some; [|by eapply Hheld].
    simpl. apply (inv_queued _ _ Hinv). rewrite Hqs. by left.
  - intros j th' [(-> & <- & _)|(Hne & Hj)]%list_lookup_insert_Some; [|by eapply Hheld].
    done.
  - intros j th' [(-> & <- & _)|(Hne & Hj)]%list_lookup_insert_Some; [|by eapply Hheld].
    simpl. specialize (Hheld _ _ Hth). by rewrite Hpc in Hheld.
  - intros j th' [(-> & <- & Hlt)|(Hne & Hj)]%list_lookup_insert_Some.
    + simpl. exists r. split; [done|]. apply list_lookup_insert_eq.
      by eapply lookup_lt_Some.
    + apply pc_ok_insert_ne; [|by eapply Hheld].
      intros t' Ht' Heq. eapply (sep_held_held s i j th th' t t'); eauto.
      by rewrite Hpc.
  - intros j th' [(-> & <- & _)|(Hne & Hj)]%list_lookup_insert_Some; [done|].
    rewrite (returned_ready N s i th t) by done. by eapply Hheld.
  - intros j th' Hj. apply pc_ok_app. by eapply Hheld.
  - intros j th' Hj. apply pc_ok_destroy_tasks; [|by eapply Hheld].
    intros t Ht (u & Heq & Hu)%list_elem_of_fmap.
    by eapply (sep_queue_held s u j th' t).
  - intros j th' [(-> & <- & _)|(Hne & Hj)]%list_lookup_insert_Some; [|by eapply Hheld].
    simpl. by eapply Hheld.
Qed.

Lemma inv_owned_step N a s s' :
  inv N s → Step a s s' →
  ∀ p, shared s' !! p = Some NotReady → p ∈ promise <$> live_tasks s'.
Proof.
  intros Hinv Hstep. pose proof (inv_owned _ _ Hinv) as Hown.
  destruct Hstep as [i th t q s ? Hth Hpc Hqs| i th s ? Hth Hpc Hqs| i th t s ? Hth Hpc
                    | i th t r s ? Hth Hpc Hinvoke Hp| | i th t s ? Hth Hpc| c v s | s | s
                    | i th s ? Ho Hth Hs | | s ? Ho Hall ];
    unfold live_tasks, in_flight in *; simpl; try done.
  - intros p Hnr%Hown.
    rewrite (flights_take _ _ th _ t) by (done || by rewrite Hpc).
    rewrite <- Permutation_middle. by rewrite Hqs in Hnr.
  - intros p Hnr%Hown.
    rewrite (flights_keep _ _ th) by (done || by rewrite Hpc).
    by rewrite Hqs in Hnr.
  - intros p Hnr%Hown.
    rewrite (flights_keep _ _ th) by (done || by rewrite Hpc). done.
  - intros p [(_ & -> & _)|(Hne & Hnr%Hown)]%list_lookup_insert_Some.
    + by apply invoke_ready in Hinvoke.
    + rewrite (flights_keep _ _ th) by (done || by rewrite Hpc). done.
  - rewrite (returned_ready N s i th t) by done. intros p Hnr.
    pose proof (Hown p Hnr) as Hin.
    rewrite <- (flights_drop _ i th (JThread Waiting (stop_requested th)) t) in Hin
      by (done || by rewrite Hpc).
    rewrite <- Permutation_middle, fmap_cons in Hin.
    apply elem_of_cons in Hin as [->|?]; [|done].
    pose proof (inv_held _ _ Hinv i th Hth) as Hok.
    rewrite Hpc in Hok. destruct Hok as (r & Hr & Hpr).
    apply invoke_ready in Hr. rewrite Hpr in Hnr. by simplify_eq.
  - intros p [Hnr%Hown|[Hge Hnr]]%lookup_app_Some.
    + rewrite !fmap_app in *. rewrite !elem_of_app in *. tauto.
    + destruct (p - length (shared s)) as [|k] eqn:Hk; [|by destruct k].
      assert (p = length (shared s)) as -> by lia.
      rewrite !fmap_app. rewrite !elem_of_app. left. right. by left.
  - intros p Hnr. pose proof Hnr as [Hnr'|(_ & ? & _)]%destroy_tasks_lookup; [|done].
    apply Hown in Hnr'. rewrite fmap_app in Hnr'.
    apply elem_of_app in Hnr' as [(u & -> & Hu)%list_elem_of_fmap|?]; [|done].
    rewrite (destroy_tasks_lookup_queued _ _ u) in Hnr; [done| |done|].
    + pose proof (inv_nodup _ _ Hinv) as Hnd. unfold live_tasks in Hnd.
      rewrite fmap_app in Hnd. by apply NoDup_app in Hnd as (? & _).
    + by apply (inv_queued _ _ Hinv).
  - intros p Hnr%Hown. rewrite (flights_keep _ _ th) by done. done.
  - intros p Hnr. pose proof Hnr as [Hnr'|(_ & ? & _)]%destroy_tasks_lookup; [|done].
    apply Hown in Hnr'. rewrite fmap_app in Hnr'.
    assert (in_flight s = []) as Hnil
      by (apply all_exited_in_flight; by eapply all_exited).
    unfold in_flight in Hnil. rewrite Hnil in Hnr'.
    apply elem_of_app in Hnr' as [(u & -> & Hu)%list_elem_of_fmap|?%elem_of_nil]; [|done].
    rewrite (destroy_tasks_lookup_queued _ _ u) in Hnr; [done| |done|].
    + pose proof (inv_nodup _ _ Hinv) as Hnd. unfold live_tasks in Hnd.
      rewrite fmap_app in Hnd. by apply NoDup_app in Hnd as (? & _).
    + by apply (inv_queued _ _ Hinv).
Qed.

Lemma queue_nodup N s : inv N s → NoDup (promise <$> m_tasks s).
Proof.
  intros Hinv. pose proof (inv_nodup _ _ Hinv) as Hnd. unfold live_tasks in Hnd.
  rewrite fmap_app in Hnd. by apply NoDup_app in Hnd as (? & _).
Qed.

Lemma inv_count_step N a s s' :
  inv N s → Step a s s' →
  count is_not_ready (shared s') =
  length (m_tasks s') + count is_dequeued (m_threads s') + count is_invoking (m_threads s').
Proof.
  intros Hinv Hstep. pose proof (inv_count _ _ Hinv) as Hc.
  destruct Hstep as [i th t q s ? Hth Hpc Hqs| i th s ? Hth Hpc Hqs| i th t s ? Hth Hpc
                    | i th t r s ? Hth Hpc Hinvoke Hp| | i th t s ? Hth Hpc| c v s | s | s
                    | i th s ? Ho Hth Hs | | s ? Ho Hall ];
    simpl; try done.
  - thread_counts Hth (JThread (Dequeued t) (stop_requested th)).
    rewrite Hpc, Hqs in *. simpl in *. lia.
  - thread_counts Hth (JThread Exited (stop_requested th)).
    rewrite Hpc, Hqs in *. simpl in *. lia.
  - thread_counts Hth (JThread (Invoking t) (stop_requested th)).
    rewrite Hpc in *. lia.
  - pose proof (count_insert is_not_ready _ _ _ r Hp) as Hh.
    apply invoke_ready in Hinvoke.
    thread_counts Hth (JThread (Returned t) (stop_requested th)).
    rewrite Hpc in *. destruct r; simplify_eq/=; lia.
  - rewrite (returned_ready N s i th t) by done.
    thread_counts Hth (JThread Waiting (stop_requested th)).
    rewrite Hpc in *. lia.
  - rewrite count_app, count_cons, count_nil, length_app. simpl. lia.
  - pose proof (destroy_tasks_count (m_tasks s) (shared s)
      (queue_nodup _ _ Hinv) (inv_queued _ _ Hinv)). lia.
  - thread_counts Hth (JThread (pc th) true). destruct (pc th); lia.
  - pose proof (destroy_tasks_count (m_tasks s) (shared s)
      (queue_nodup _ _ Hinv) (inv_queued _ _ Hinv)) as Hd.
    destruct (all_exited_count s (all_exited s N Hinv Ho Hall)) as (Hd0 & Hi0 & _).
    rewrite !count_nil. lia.
Qed.

Lemma inv_step N a s s' : inv N s → Step a s s' → inv N s'.
Proof.
  intros Hinv Hstep. split.
  - by eapply inv_threads_step.
  - by eapply inv_active_step.
  - by eapply inv_nodup_step.
  - by eapply inv_queued_step.
  - by eapply inv_held_step.
  - by eapply inv_owned_step.
  - by eapply inv_exn_step.
  - by eapply inv_stop_step.
  - by eapply inv_cur_step.
  - by eapply inv_count_step.
Qed.

Lemma inv_run N sched s s' : inv N s → run sched s = Some s' → inv N s'.
Proof.
  revert s. induction sched as [|a sched IH]; simpl; intros s Hinv.
  - by intros [= <-].
  - destruct (step a s) as [s1|] eqn:Hs; [|done].
    apply IH. eapply inv_step; [done|]. by apply step_Step.
Qed.

Lemma reachable_inv N s : reachable N s → inv N s.
Proof. intros [sched Hrun]. eapply inv_run; [apply inv_init|done]. Qed.




(** *** The function and the relation agree *)

Lemma Step_step a s s' : Step a s s' → step a s = Some s'.
Proof.
  intros Hstep. unfold step.
  destruct Hstep as [i th t q s Ht Hth Hpc Hqs| i th s Ht Hth Hpc Hqs Hstop
                    | i th t s Ht Hth Hpc
                    | i th t r s Ht Hth Hpc Hinvoke Hp| i th t e s Ht Hth Hpc Hbody
                    | i th t s Ht Hth Hpc| c v s Ht Ha | s Ht Ha | s Ht Ho
                    | i th s Ht Ho Hth Hs | i th s Ht Ho Hth Hpc | s Ht Ho Hall ];
    rewrite Ht; simpl;
    unfold worker_step, dtor_enter, dtor_request_stop, dtor_join, dtor_leave;
    rewrite ?Hth, ?Ho, ?Ha; simpl;
    rewrite ?Hth, ?Hpc, ?Hqs, ?Hstop, ?Hs, ?Hall; simpl; rewrite ?Hpc, ?Ht; try done.
  - unfold task_body, set_value. by rewrite Hinvoke, Hp.
  - by rewrite Hbody.
Qed.

Lemma set_pc_lookup i th c s q n h :
  m_threads s !! i = Some th →
  m_threads (set_pc i th c s q n h) !! i = Some (JThread c (stop_requested th)).
Proof.
  intros Hth. simpl. apply list_lookup_insert_eq. by eapply lookup_lt_Some.
Qed.

(** *** Ready shared states never change *)

Lemma destroy_tasks_ready q (h : heap) p r :
  h !! p = Some r → r ≠ NotReady → destroy_tasks q h !! p = Some r.
Proof.
  intros Hp Hr. induction q as [|t q IH]; csimpl; [done|].
  unfold promise_destroy.
  destruct (destroy_tasks q h !! promise t) as [[]|] eqn:Ht; try done.
  rewrite list_lookup_insert_ne; [done|]. intros Heq. rewrite Heq in *. congruence.
Qed.

Lemma ready_stable_step a s s' p r :
  Step a s s' → shared s !! p = Some r → r ≠ NotReady → shared s' !! p = Some r.
Proof.
  intros Hstep Hp Hr.
  destruct Hstep as [ | | | i th t r' s ? Hth Hpc Hinvoke Hpt | | i th t s ? Hth Hpc
                    | c a s | s | | | | s ]; simpl; try done.
  - rewrite list_lookup_insert_ne; [done|]. intros Heq. rewrite Heq in *. congruence.
  - unfold promise_destroy.
    destruct (shared s !! promise t) as [[]|] eqn:Ht; try done.
    rewrite list_lookup_insert_ne; [done|]. intros Heq. rewrite Heq in *. congruence.
  - by apply lookup_app_l_Some.
  - by apply destroy_tasks_ready.
  - by apply destroy_tasks_ready.
Qed.

Lemma ready_stable_run sched s s' p r :
  run sched s = Some s' → shared s !! p = Some r → r ≠ NotReady →
  shared s' !! p = Some r.
Proof.
  revert s. induction sched as [|a sched IH]; simpl; intros s.
  - by intros [= <-].
  - destruct (step a s) as [s1|] eqn:Hs; [|done]. intros Hrun Hp Hr.
    apply (IH s1); [done| |done]. eapply ready_stable_step; [|done..].
    by apply step_Step.
Qed.

(** *** One worker alone empties the queue *)

Lemma worker_drains N q :
  ∀ s i th,
    inv N s → terminated s = false →
    m_threads s !! i = Some th → pc th = Waiting → stop_requested th = true →
    m_tasks s = q → Forall returns q →
    ∃ s', run (replicate (4 * length q + 1) (Work i)) s = Some s' ∧
          m_threads s' !! i = Some (JThread Exited true) ∧
          m_tasks s' = [] ∧
          ∀ t r, t ∈ q → invoke t = Return r → shared s' !! promise t = Some r.
Proof.
  induction q as [|t q IH]; intros s i th Hinv Hterm Hth Hpc Hstop Hq Hret.
  - eexists. simpl. rewrite (Step_step _ _ _ (Step_exit i th s Hterm Hth Hpc Hq Hstop)).
    split_and!; [done| |done|].
    + rewrite set_pc_lookup by done. by rewrite Hstop.
    + by intros t r ?%elem_of_nil.
  - apply Forall_cons in Hret as [[r Hr] Hret].
    (* dequeue *)
    pose proof (Step_dequeue i th t q s Hterm Hth Hpc Hq) as S1.
    set (s1 := set_pc i th (Dequeued t) s q (m_nActive s) (shared s)) in *.
    pose proof (inv_step _ _ _ _ Hinv S1) as Hinv1.
    assert (m_threads s1 !! i = Some (JThread (Dequeued t) true)) as Hth1.
    { unfold s1. rewrite set_pc_lookup by done. by rewrite Hstop. }
    (* increment *)
    pose proof (Step_count_up i _ t s1 Hterm Hth1 eq_refl) as S2.
    set (s2 := set_pc i _ (Invoking t) s1 _ _ _) in *.
    pose proof (inv_step _ _ _ _ Hinv1 S2) as Hinv2.
    assert (m_threads s2 !! i = Some (JThread (Invoking t) true)) as Hth2.
    { unfold s2. by rewrite set_pc_lookup. }
    (* run the closure *)
    pose proof (inv_held _ _ Hinv2 i _ Hth2) as Hnr. simpl in Hnr.
    pose proof (Step_invoke i _ t r s2 Hterm Hth2 eq_refl Hr Hnr) as S3.
    set (s3 := set_pc i _ (Returned t) s2 _ _ _) in *.
    pose proof (inv_step _ _ _ _ Hinv2 S3) as Hinv3.
    assert (m_threads s3 !! i = Some (JThread (Returned t) true)) as Hth3.
    { unfold s3. by rewrite set_pc_lookup. }
    assert (shared s3 !! promise t = Some r) as Hdone.
    { simpl. apply list_lookup_insert_eq. by eapply lookup_lt_Some. }
    (* decrement *)
    pose proof (Step_count_down i _ t s3 Hterm Hth3 eq_refl) as S4.
    set (s4 := set_pc i _ Waiting s3 _ _ _) in *.
    pose proof (inv_step _ _ _ _ Hinv3 S4) as Hinv4.
    assert (m_threads s4 !! i = Some (JThread Waiting true)) as Hth4.
    { unfold s4. by rewrite set_pc_lookup. }
    destruct (IH s4 i _ Hinv4 Hterm Hth4 eq_refl eq_refl eq_refl Hret)
      as (s' & Hrun & Hex & Hempty & Hres).
    exists s'. split_and!; [|done..|].
    + replace (4 * length (t :: q) + 1) with (4 + (4 * length q + 1)) by (simpl; lia).
      change (replicate (4 + ?n) ?a) with (a :: a :: a :: a :: replicate n a).
      cbn [run].
      rewrite (Step_step _ _ _ S1), (Step_step _ _ _ S2),
        (Step_step _ _ _ S3), (Step_step _ _ _ S4). done.
    + intros u ru [->|Hu]%elem_of_cons Hu'; [|by eapply Hres].
      assert (ru = r) as -> by congruence.
      eapply ready_stable_run; [done| |].
      * eapply ready_stable_step; [exact S4|done|].
        apply invoke_ready in Hr. by destruct r.
      * apply invoke_ready in Hr. by destruct r.
Qed.

(** *** Logs of a schedule *)

Lemma shared_length_step a s s' :
  Step a s s' →
  length (shared s') = length (shared s) + length (enqueued_by a s).
Proof.
  intros Hstep. destruct Hstep; simpl;
    rewrite ?length_insert, ?promise_destroy_length, ?destroy_tasks_length,
      ?length_app; simpl; lia.
Qed.

Lemma enqueue_log_fresh sched :
  ∀ s, NoDup (log enqueued_by sched s) ∧
       ∀ p, p ∈ log enqueued_by sched s → length (shared s) ≤ p.
Proof.
  induction sched as [|a sched IH]; intros s; simpl.
  - split; [apply NoDup_nil_2|]. by intros p ?%elem_of_nil.
  - destruct (step a s) as [s1|] eqn:Hs.
    + destruct (IH s1) as [Hnd Hge].
      pose proof (shared_length_step _ _ _ (step_Step _ _ _ Hs)) as Hlen.
      destruct a; simpl in *;
        try (split; [done|]; intros p Hp%Hge; lia).
      split.
      * apply NoDup_cons. split; [|done]. intros Hp%Hge. lia.
      * intros p [->|Hp%Hge]%elem_of_cons; lia.
    + split; [apply NoDup_nil_2|]. by intros p ?%elem_of_nil.
Qed.

Lemma fifo_run sched :
  ∀ s s', run sched s = Some s' →
    log dequeued_by sched s ++ (promise <$> m_tasks s')
    `sublist_of` (promise <$> m_tasks s) ++ log enqueued_by sched s.
Proof.
  induction sched as [|a sched IH]; intros s s'; simpl.
  - intros [= <-]. by rewrite app_nil_r.
  - destruct (step a s) as [s1|] eqn:Hs; [|done]. intros Hrun.
    specialize (IH s1 s' Hrun). apply step_Step in Hs.
    destruct Hs as [i th t q s ? Hth Hpc Hqs| i th s ? Hth Hpc Hqs| i th t s ? Hth Hpc
                   | i th t r s ? Hth Hpc Hinvoke Hp| i th t e s ? Hth Hpc
                   | i th t s ? Hth Hpc| c v s | s | s
                   | i th s ? Ho Hth Hs | | s ];
      simpl in *; rewrite ?Hth, ?Hpc, ?Hqs; simpl; rewrite ?app_nil_r; try done;
      try (by destruct (m_tasks s)).
    + apply sublist_skip. exact IH.
    + rewrite fmap_app, <- app_assoc in IH. exact IH.
    + by apply sublist_inserts_l.
    + by apply sublist_inserts_l.
Qed.

(** The job handed to a worker is the front of the queue. *)
Lemma taken_is_front a s s' : step a s = Some s' → taken_by a s = dequeued_by a s.
Proof.
  intros Hs. destruct a as [i| | | | | |]; try done.
  unfold taken_by, dequeued_by. rewrite Hs.
  destruct (m_threads s !! i) as [th|] eqn:Hth; [|done].
  unfold step in Hs. destruct (terminated s); [done|].
  unfold worker_step in Hs. rewrite Hth in Hs.
  destruct (pc th) eqn:Hpc; try (by destruct (m_tasks s)).
  destruct (m_tasks s) as [|t q].
  - destruct (stop_requested th); [|done]. simplify_eq.
    by rewrite set_pc_lookup.
  - simplify_eq. by rewrite set_pc_lookup.
Qed.

Lemma taken_log sched : ∀ s, log taken_by sched s = log dequeued_by sched s.
Proof.
  induction sched as [|a sched IH]; intros s; simpl; [done|].
  destruct (step a s) as [s1|] eqn:Hs; [|done].
  by rewrite (taken_is_front _ _ _ Hs), IH.
Qed.

(** Without [clearQueue] and before the queue dies with the pool, nothing
    is lost on the way. *)
Lemma fifo_run_exact sched :
  ∀ s s', run sched s = Some s' → (∀ a, a ∈ sched → discards a = false) →
    log dequeued_by sched s ++ (promise <$> m_tasks s')
    = (promise <$> m_tasks s) ++ log enqueued_by sched s.
Proof.
  induction sched as [|a sched IH]; intros s s'; simpl.
  - intros [= <-] _. by rewrite app_nil_r.
  - destruct (step a s) as [s1|] eqn:Hs; [|done]. intros Hrun Hnd.
    assert (discards a = false) as Ha by (apply Hnd; by left).
    assert (∀ b, b ∈ sched → discards b = false) as Hnd'
      by (intros b Hb; apply Hnd; by right).
    specialize (IH s1 s' Hrun Hnd'). apply step_Step in Hs.
    destruct Hs as [i th t q s ? Hth Hpc Hqs| i th s ? Hth Hpc Hqs| i th t s ? Hth Hpc
                   | i th t r s ? Hth Hpc Hinvoke Hp| i th t e s ? Hth Hpc
                   | i th t s ? Hth Hpc| c v s | s | s
                   | i th s ? Ho Hth Hs | | s ];
      simpl in *; rewrite ?Hth, ?Hpc, ?Hqs; simpl; rewrite ?app_nil_r; try done;
      try (by destruct (m_tasks s)).
    + f_equal. exact IH.
    + rewrite fmap_app, <- app_assoc in IH. exact IH.
Qed.

Lemma sublist_order_unique {A} (l : list A) a b :
  NoDup l → [a; b] `sublist_of` l → [b; a] `sublist_of` l → False.
Proof.
  induction l as [|x l IH]; intros Hnd Hab Hba; [by inv Hab|].
  apply NoDup_cons in Hnd as [Hx Hnd].
  inv Hab; inv Hba; try by eapply IH.
  all: apply Hx;
    match goal with
    | H : _ `sublist_of` _ |- _ =>
        solve [eapply elem_of_sublist; [|exact H]; first [by left|by right; left]]
    end.
Qed.

(** *** The fate of a job *)

Lemma live_unique (l : list task) t u :
  NoDup (promise <$> l) → t ∈ l → u ∈ l → promise t = promise u → t = u.
Proof.
  induction l as [|x l IH]; csimpl; [by intros _ ?%elem_of_nil|].
  rewrite NoDup_cons. intros [Hx Hnd] [->|Ht]%elem_of_cons [->|Hu]%elem_of_cons Heq;
    try done; [| |by apply IH]; exfalso; apply Hx.
  - rewrite Heq. by apply list_elem_of_fmap_2.
  - rewrite <- Heq. by apply list_elem_of_fmap_2.
Qed.

Lemma invoke_not_broken t r : invoke t = Return r → r ≠ NotReady ∧ r ≠ broken.
Proof. intros Hr%invoke_ready. by destruct r. Qed.

Lemma live_fate N s t : inv N s → t ∈ live_tasks s → fate t s.
Proof.
  intros Hinv [Ht|Ht]%elem_of_app.
  - left. split; [by apply elem_of_app; left|]. by apply (inv_queued _ _ Hinv).
  - pose proof Ht as (i & th & Hi & Hheld)%in_flight_elem.
    pose proof (inv_held _ _ Hinv i th Hi) as Hok.
    destruct (pc th); simplify_eq/=.
    + left. split; [by apply elem_of_app; right|done].
    + left. split; [by apply elem_of_app; right|done].
    + by right.
Qed.

Lemma fate_step N a s s' t :
  inv N s → Step a s s' → (discards a = true → t ∉ m_tasks s) →
  fate t s → fate t s'.
Proof.
  intros Hinv Hstep Hkeep [[Hlive Hnr]|(r & Hr & Hp)]; last first.
  { right. exists r. split; [done|].
    eapply ready_stable_step; [exact Hstep|exact Hp|].
    by apply invoke_not_broken in Hr as [? _]. }
  pose proof (inv_nodup _ _ Hinv) as Hnd.
  destruct Hstep as [i th u q s ? Hth Hpc Hqs| i th s ? Hth Hpc Hqs| i th u s ? Hth Hpc
                    | i th u r s ? Hth Hpc Hinvoke Hp| | i th u s ? Hth Hpc| c v s | s | s
                    | i th s ? Ho Hth Hs | | s ? Ho Hall ];
    unfold fate, live_tasks, in_flight in *; simpl in *.
  - left. split; [|done].
    rewrite (flights_take _ _ th _ u) by (done || by rewrite Hpc).
    rewrite <- Permutation_middle. by rewrite Hqs in Hlive.
  - left. split; [|done].
    rewrite (flights_keep _ _ th) by (done || by rewrite Hpc).
    by rewrite Hqs in Hlive.
  - left. split; [|done].
    rewrite (flights_keep _ _ th) by (done || by rewrite Hpc). done.
  - destruct (decide (promise u = promise t)) as [Heq|Hne].
    + assert (u = t) as ->.
      { eapply (live_unique _ u t Hnd); [|done..].
        apply elem_of_app. right. eapply (in_flight_lookup s); [done|].
        by rewrite Hpc. }
      right. exists r. split; [done|].
      apply list_lookup_insert_eq. by eapply lookup_lt_Some.
    + left. rewrite list_lookup_insert_ne by done. split; [|done].
      rewrite (flights_keep _ _ th) by (done || by rewrite Hpc). done.
  - by left.
  - left. rewrite (returned_ready N s i th u) by done. split; [|done].
    rewrite <- (flights_drop _ i th (JThread Waiting (stop_requested th)) u) in Hlive
      by (done || by rewrite Hpc).
    rewrite <- Permutation_middle in Hlive.
    apply elem_of_cons in Hlive as [->|?]; [|done].
    pose proof (inv_held _ _ Hinv i th Hth) as Hok.
    rewrite Hpc in Hok. destruct Hok as (r & Hr & Hpr).
    apply invoke_not_broken in Hr as [Hr _]. rewrite Hpr in Hnr. by simplify_eq.
  - left. split; [|by apply lookup_app_l_Some].
    rewrite !elem_of_app in *. tauto.
  - apply elem_of_app in Hlive as [Hq|Hfl]; [by destruct Hkeep|].
    left. split; [done|].
    rewrite destroy_tasks_lookup_other; [done|].
    intros (u & Heq & Hu)%list_elem_of_fmap.
    apply in_flight_elem in Hfl as (j & th & Hj & Hheld).
    by eapply (sep_queue_held s u j th t).
  - by left.
  - left. split; [|done]. rewrite (flights_keep _ _ th) by done. done.
  - by left.
  - apply elem_of_app in Hlive as [Hq|Hfl]; [by destruct Hkeep|].
    assert (in_flight s = []) as Hnil
      by (apply all_exited_in_flight; by eapply all_exited).
    unfold in_flight in Hnil. rewrite Hnil in Hfl. by apply elem_of_nil in Hfl.
Qed.

Lemma fate_or_broken_step N a s s' t :
  inv N s → Step a s s' →
  fate t s ∨ shared s !! promise t = Some broken →
  fate t s' ∨ shared s' !! promise t = Some broken.
Proof.
  intros Hinv Hstep [Hfate|Hb].
  - destruct (discards a) eqn:Hd.
    + destruct Hfate as [[[Hq|Hfl]%elem_of_app Hnr]|Hdone].
      * right. destruct Hstep; try done; simpl.
        -- apply destroy_tasks_lookup_queued; [by eapply queue_nodup|done..].
        -- apply destroy_tasks_lookup_queued; [by eapply queue_nodup|done..].
      * left. eapply fate_step; [done..| |].
        -- intros _ Hq. apply in_flight_elem in Hfl as (j & th & Hj & Hheld).
           by eapply (sep_queue_held s t j th t); eauto using inv_nodup.
        -- left. split; [|done]. apply elem_of_app. by right.
      * left. eapply fate_step; [done..| |by right].
        destruct Hdone as (r & Hr & Hp). intros _ Hq.
        pose proof (inv_queued _ _ Hinv t Hq) as Hnr.
        apply invoke_not_broken in Hr as [Hr _]. rewrite Hp in Hnr. by simplify_eq.
    + left. eapply fate_step; [done..| |done]. by rewrite Hd.
  - right. eapply ready_stable_step; [exact Hstep|exact Hb|done].
Qed.

Lemma fate_or_broken_run N sched s s' t :
  inv N s → run sched s = Some s' →
  fate t s ∨ shared s !! promise t = Some broken →
  fate t s' ∨ shared s' !! promise t = Some broken.
Proof.
  revert s. induction sched as [|a sched IH]; simpl; intros s Hinv.
  - by intros [= <-].
  - destruct (step a s) as [s1|] eqn:Hs; [|done]. intros Hrun Hf.
    apply step_Step in Hs.
    apply (IH s1); [by eapply inv_step|done|]. by eapply fate_or_broken_step.
Qed.

Lemma invoke_callable_result t r :
  invoke t = Return r →
  ∃ x, callable_result (fn t) (args t) = Some x ∧ result_of r = Some (Return x).
Proof.
  unfold invoke, callable_result.
  destruct (fn t) as [f|f]; destruct (f (args t)); intros [= <-]; eauto.
Qed.

Lemma callable_result_invoke t x :
  callable_result (fn t) (args t) = Some x →
  ∃ r, invoke t = Return r ∧ result_of r = Some (Return x).
Proof.
  unfold invoke, callable_result.
  destruct (fn t) as [f|f]; destruct (f (args t)); intros [= <-]; eauto.
Qed.

Lemma ready_never_dequeued N sched :
  ∀ s p r, inv N s → shared s !! p = Some r → r ≠ NotReady →
           p ∉ log dequeued_by sched s.
Proof.
  induction sched as [|a sched IH]; intros s p r Hinv Hp Hr; simpl.
  - by intros ?%elem_of_nil.
  - destruct (step a s) as [s1|] eqn:Hs; [|by intros ?%elem_of_nil].
    apply step_Step in Hs. intros [Hin|Hin]%elem_of_app.
    + destruct a as [i| | | | | |]; simpl in Hin; try by apply elem_of_nil in Hin.
      destruct (m_threads s !! i) as [th|]; [|by apply elem_of_nil in Hin].
      destruct (m_tasks s) as [|t q] eqn:Hq; [by apply elem_of_nil in Hin|].
      destruct (pc th); try by apply elem_of_nil in Hin.
      apply list_elem_of_singleton in Hin as ->.
      pose proof (inv_queued _ _ Hinv t) as Hnr. rewrite Hq in Hnr.
      rewrite Hnr in Hp by left. by simplify_eq.
    + eapply (IH s1 p r); [by eapply inv_step| |done..].
      by eapply ready_stable_step.
Qed.

Lemma broken_not_live N s p :
  inv N s → shared s !! p = Some broken → p ∉ promise <$> live_tasks s.
Proof.
  intros Hinv Hb (t & -> & Ht)%list_elem_of_fmap.
  destruct (live_fate N s t Hinv Ht) as [[_ Hnr]|(r & Hr & Hp)].
  - rewrite Hnr in Hb. by simplify_eq.
  - apply invoke_not_broken in Hr as [_ Hr]. rewrite Hp in Hb. by simplify_eq.
Qed.

(** *** Closures never come back to the queue *)

Lemma queue_fresh_step a s s' K :
  Step a s s' → K ≤ length (shared s) →
  (∀ u, u ∈ m_tasks s → K ≤ promise u) →
  K ≤ length (shared s') ∧ ∀ u, u ∈ m_tasks s' → K ≤ promise u.
Proof.
  intros Hstep HK Hq.
  pose proof (shared_length_step _ _ _ Hstep) as Hlen. split; [lia|].
  destruct Hstep as [i th t q s ? Hth Hpc Hqs| | | | | | c v s | | | | | ];
    simpl; try done; try (by intros u ?%elem_of_nil).
  - intros u Hu. apply Hq. rewrite Hqs. by right.
  - intros u [Hu|Hu%list_elem_of_singleton]%elem_of_app; [by apply Hq|].
    by subst u.
Qed.

Lemma fate_run_fresh N K sched :
  ∀ s s' t,
    inv N s → run sched s = Some s' → K ≤ length (shared s) →
    (∀ u, u ∈ m_tasks s → K ≤ promise u) → promise t < K →
    fate t s → fate t s'.
Proof.
  induction sched as [|a sched IH]; simpl; intros s s' t Hinv Hrun HK Hq Ht Hfate.
  - by simplify_eq.
  - destruct (step a s) as [s1|] eqn:Hs; [|done]. apply step_Step in Hs.
    destruct (queue_fresh_step _ _ _ K Hs HK Hq) as [HK1 Hq1].
    apply (IH s1); [by eapply inv_step|done..|].
    eapply fate_step; [done..| |done].
    intros _ Hin%Hq. lia.
Qed.

(** *** Counting shared states *)

Lemma heap_partition (h : heap) :
  length h = count is_not_ready h + count is_fulfilled h + count is_broken h.
Proof.
  induction h as [|st h IH]; [done|].
  rewrite !count_cons. simpl. destruct st; simpl; lia.
Qed.


(** *** Teardown *)

Lemma insert_in_loop (ths : list jthread) i th c b :
  ths !! i = Some th → c ≠ Exited →
  ¬ ∀ th', th' ∈ <[i := JThread c b]> ths → pc th' = Exited.
Proof.
  intros Hth Hc Hall. apply Hc.
  apply (Hall (JThread c b)). apply list_elem_of_insert. by eapply lookup_lt_Some.
Qed.

Lemma late_only_step a s s' K : Step a s s' → late_only K s → late_only K s'.
Proof.
  intros Hstep [HK Hlate].
  pose proof (shared_length_step _ _ _ Hstep) as Hlen. split; [lia|].
  destruct Hstep as [i th t q s ? Hth Hpc Hqs| i th s ? Hth Hpc Hqs| i th t s ? Hth Hpc
                    | i th t r s ? Hth Hpc Hinvoke Hp| | i th t s ? Hth Hpc| c v s | s | s
                    | i th s ? Ho Hth Hs | | s ];
    simpl; try done;
    try (by intros _ u ?%elem_of_nil);
    try (by intros Hall; exfalso;
            eapply insert_in_loop; [exact Hth| |exact Hall]).
  - intros Hall u [Hu|Hu%list_elem_of_singleton]%elem_of_app; [by apply Hlate|].
    by subst u.
  - intros Hall. apply Hlate. intros th0 [j Hj]%list_elem_of_lookup.
    destruct (decide (i = j)) as [->|Hne].
    + assert (th0 = th) as -> by congruence.
      apply (Hall (JThread (pc th) true)).
      apply list_elem_of_insert. by eapply lookup_lt_Some.
    + apply Hall. apply list_elem_of_lookup. exists j.
      by rewrite list_lookup_insert_ne.
Qed.

Lemma teardown_fate N K sched :
  ∀ s s' t,
    inv N s → late_only K s → promise t < K → ClearQueue ∉ sched →
    run sched s = Some s' → fate t s → fate t s'.
Proof.
  induction sched as [|a sched IH]; simpl; intros s s' t Hinv Hlate Ht Hnc Hrun Hfate.
  - by simplify_eq.
  - destruct (step a s) as [s1|] eqn:Hs; [|done]. apply step_Step in Hs.
    apply not_elem_of_cons in Hnc as [Hne Hnc].
    apply (IH s1); [by eapply inv_step|by eapply late_only_step|done..|].
    eapply fate_step; [done..| |done].
    intros Hd Hq. destruct Hs; try done.
    destruct Hlate as [_ Hlate].
    pose proof (Hlate ltac:(by eapply all_exited) t Hq). lia.
Qed.

Lemma worker_in_loop_before_teardown N s :
  reachable N s → 0 < N → owner s = Using → some_worker_in_loop s.
Proof.
  intros Hinv%reachable_inv HN Ho.
  pose proof (inv_threads _ _ Hinv) as Hlen. unfold alive in Hlen. rewrite Ho in Hlen.
  destruct (lookup_lt_is_Some_2 (m_threads s) 0) as [th Hth]; [lia|].
  exists 0, th. split; [done|]. intros Hpc.
  destruct (inv_stop _ _ Hinv 0 th Hth) as [Hs1 Hs2].
  destruct (Hs2 (Hs1 Hpc)) as [? _]. done.
Qed.

Lemma sum_weight_insert (ths : list jthread) i th th' :
  ths !! i = Some th →
  sum_list_with weight (<[i := th']> ths) + weight th
  = sum_list_with weight ths + weight th'.
Proof.
  intros (l1 & l2 & -> & _ & Hins)%lookup_split. rewrite Hins.
  rewrite !sum_list_with_app. simpl. lia.
Qed.

Ltac measure_thread Hth x :=
  pose proof (sum_weight_insert _ _ _ x Hth) as Hw;
  pose proof (count_insert is_unstopped _ _ _ x Hth) as Hu;
  unfold weight at 2 4 in Hw; unfold is_unstopped at 2 4 in Hu;
  simpl in Hw, Hu.

Lemma measure_step a s s' :
  Step a s s' → submits a = false → terminated s' = false →
  measure s' < measure s.
Proof.
  intros Hstep Hsub Hterm. unfold measure.
  destruct Hstep as [i th t q s ? Hth Hpc Hqs| i th s ? Hth Hpc Hqs| i th t s ? Hth Hpc
                    | i th t r s ? Hth Hpc Hinvoke Hp| | i th t s ? Hth Hpc| c v s | s
                    | s ? Ho | i th s ? Ho Hth Hs | i th s ? Ho Hth Hpc | s ? Ho Hall ];
    simpl in *; try done; rewrite ?Ho; try lia.
  - measure_thread Hth (JThread (Dequeued t) (stop_requested th)).
    rewrite Hpc, Hqs in *. simpl. destruct (stop_requested th); simpl in *; lia.
  - measure_thread Hth (JThread Exited (stop_requested th)).
    rewrite Hpc in *. destruct (stop_requested th); simpl in *; lia.
  - measure_thread Hth (JThread (Invoking t) (stop_requested th)).
    rewrite Hpc in *. destruct (stop_requested th); simpl in *; lia.
  - measure_thread Hth (JThread (Returned t) (stop_requested th)).
    rewrite Hpc in *. destruct (stop_requested th); simpl in *; lia.
  - measure_thread Hth (JThread Waiting (stop_requested th)).
    rewrite Hpc in *. destruct (stop_requested th); simpl in *; lia.
  - measure_thread Hth (JThread (pc th) true).
    rewrite Hs in *. simpl in *. destruct (pc th); lia.
Qed.

Lemma live_tasks_shrink a s s' t :
  Step a s s' → (∀ c v, a ≠ AddJob c v) → t ∈ live_tasks s' → t ∈ live_tasks s.
Proof.
  intros Hstep Hna.
  destruct Hstep as [i th u q s ? Hth Hpc Hqs| i th s ? Hth Hpc Hqs| i th u s ? Hth Hpc
                    | i th u r s ? Hth Hpc Hinvoke Hp| | i th u s ? Hth Hpc| c v s | s | s
                    | i th s ? Ho Hth Hs | | s ];
    unfold live_tasks, in_flight; simpl; try done.
  - rewrite (flights_take _ _ th _ u) by (done || by rewrite Hpc).
    rewrite <- Permutation_middle. by rewrite Hqs.
  - rewrite (flights_keep _ _ th) by (done || by rewrite Hpc). by rewrite Hqs.
  - rewrite (flights_keep _ _ th) by (done || by rewrite Hpc). done.
  - rewrite (flights_keep _ _ th) by (done || by rewrite Hpc). done.
  - rewrite <- (flights_drop (m_threads s) i th (JThread Waiting (stop_requested th)) u)
      by (done || by rewrite Hpc).
    rewrite <- Permutation_middle. by right.
  - by destruct (Hna c v).
  - intros ?. apply elem_of_app. by right.
  - rewrite (flights_keep _ _ th) by done. done.
  - by intros ?%elem_of_nil.
Qed.

Lemma not_all_stopped s :
  all_stopped s = false →
  ∃ i th, m_threads s !! i = Some th ∧ stop_requested th = false.
Proof.
  unfold all_stopped. induction (m_threads s) as [|th l IH]; simpl; [done|].
  destruct (stop_requested th) eqn:Hs; simpl.
  - intros (i & th' & ? & ?)%IH. by exists (S i), th'.
  - intros _. by exists 0, th.
Qed.

Lemma teardown_progress N s :
  good N s → alive s = true →
  ∃ a s', submits a = false ∧ step a s = Some s' ∧ terminated s' = false.
Proof.
  intros (Hinv & Hterm & Hret) Halive. unfold alive in Halive.
  destruct (owner s) as [|[i|]|] eqn:Ho; [| | |done].
  - exists DtorEnter. eexists. split; [done|].
        split; [by apply Step_step, Step_dtor_enter|exact Hterm].
  - destruct (inv_cur _ _ Hinv i Ho) as (th & Hth & Hstop).
    destruct (pc th) as [|t|t|t|] eqn:Hpc.
    + destruct (m_tasks s) as [|t q] eqn:Hq.
      * exists (Work i). eexists. split; [done|].
        split; [by apply Step_step, (Step_exit i th)|exact Hterm].
      * exists (Work i). eexists. split; [done|].
        split; [by apply Step_step, (Step_dequeue i th t q)|exact Hterm].
    + exists (Work i). eexists. split; [done|].
        split; [by apply Step_step, (Step_count_up i th t)|exact Hterm].
    + destruct (Hret t) as [r Hr].
      { apply elem_of_app. right. eapply in_flight_lookup; [done|]. by rewrite Hpc. }
      pose proof (inv_held _ _ Hinv i th Hth) as Hnr. rewrite Hpc in Hnr.
      exists (Work i). eexists. split; [done|].
        split; [by apply Step_step, (Step_invoke i th t r)|exact Hterm].
    + exists (Work i). eexists. split; [done|].
        split; [by apply Step_step, (Step_count_down i th t)|exact Hterm].
    + exists DtorJoin. eexists. split; [done|].
        split; [by apply Step_step, (Step_dtor_join i th)|exact Hterm].
  - destruct (all_stopped s) eqn:Hall.
    + exists DtorLeave. eexists. split; [done|].
        split; [by apply Step_step, Step_dtor_leave|exact Hterm].
    + apply not_all_stopped in Hall as (i & x & Hi & Hx).
      exists (DtorRequestStop i). eexists. split; [done|].
        split; [by apply Step_step, (Step_dtor_stop i x)|exact Hterm].
Qed.

Lemma good_step N a s s' :
  good N s → Step a s s' → submits a = false → terminated s' = false → good N s'.
Proof.
  intros (Hinv & Hterm & Hret) Hstep Hsub Hterm'. split_and!.
  - by eapply inv_step.
  - done.
  - intros t Ht. apply Hret. eapply live_tasks_shrink; [done| |done].
    intros c v ->. done.
Qed.

Lemma teardown_completes N n :
  ∀ s, measure s ≤ n → good N s → alive s = true →
       ∃ sched s', run sched s = Some s' ∧ owner s' = Gone ∧ terminated s' = false ∧
                   ∀ a, a ∈ sched → submits a = false.
Proof.
  induction n as [|n IH]; intros s Hm Hgood Halive.
  - exfalso. unfold measure, alive in *. destruct (owner s) as [|[]|]; try done; lia.
  - destruct (teardown_progress N s Hgood Halive) as (a & s1 & Hsub & Hstep & Hterm1).
    pose proof (step_Step _ _ _ Hstep) as HStep.
    pose proof (measure_step _ _ _ HStep Hsub Hterm1) as Hlt.
    destruct (alive s1) eqn:Halive1.
    + destruct (IH s1) as (sched & s' & Hrun & Ho & Ht & Hall);
        [lia|by eapply good_step|done|].
      exists (a :: sched), s'. simpl. rewrite Hstep. split_and!; [done..|].
      intros b [->|Hb]%elem_of_cons; [done|by apply Hall].
    + exists [a], s1. simpl. rewrite Hstep. split_and!; [done| |done|].
      * unfold alive in Halive1. by destruct (owner s1).
      * by intros b ->%list_elem_of_singleton.
Qed.

Lemma drained_results N s0 sched s1 t :
  inv N s0 → some_worker_in_loop s0 →
  run sched s0 = Some s1 → ClearQueue ∉ sched → owner s1 = Gone →
  t ∈ live_tasks s0 →
  ∃ r, invoke t = Return r ∧ shared s1 !! promise t = Some r.
Proof.
  intros Hinv (i0 & th0 & Hth0 & Hpc0) Hrun Hnc Ho Ht.
  assert (late_only (length (shared s0)) s0) as Hlate.
  { split; [done|]. intros Hall. destruct Hpc0. apply Hall.
    by eapply list_elem_of_lookup_2. }
  assert (promise t < length (shared s0)) as Hlt.
  { eapply owned_lt; [done|]. by apply list_elem_of_fmap_2. }
  pose proof (teardown_fate N _ sched s0 s1 t Hinv Hlate Hlt Hnc Hrun
                (live_fate _ _ _ Hinv Ht)) as [[Hlive _]|Hdone]; [|done].
  pose proof (inv_threads _ _ (inv_run _ _ _ _ Hinv Hrun)) as Hgone.
  unfold alive in Hgone. rewrite Ho in Hgone. destruct Hgone as [Hths Hq].
  unfold live_tasks, in_flight in Hlive. rewrite Hths, Hq in Hlive.
  by apply elem_of_nil in Hlive.
Qed.

Lemma pool_drains N s0 :
  inv N s0 → some_worker_in_loop s0 → terminated s0 = false →
  (∀ t, t ∈ live_tasks s0 → returns t) →
  ∃ sched s1,
    run sched s0 = Some s1 ∧ owner s1 = Gone ∧
    (∀ a, a ∈ sched → submits a = false) ∧
    ∀ t r, t ∈ live_tasks s0 → invoke t = Return r →
           shared s1 !! promise t = Some r.
Proof.
  intros Hinv Hloop Hterm Hret.
  assert (alive s0 = true) as Halive.
  { destruct Hloop as (i0 & th0 & Hth0 & _).
    pose proof (inv_threads _ _ Hinv) as Hlen.
    destruct (alive s0); [done|]. destruct Hlen as [Hnil _].
    by rewrite Hnil in Hth0. }
  destruct (teardown_completes N (measure s0) s0) as (sched & s1 & Hrun & Ho & _ & Hall);
    [done|by split_and!|done|].
  exists sched, s1. split_and!; [done..|].
  intros t r Ht Hr.
  destruct (drained_results N s0 sched s1 t Hinv Hloop Hrun) as (r' & Hr' & Hp);
    [|done..|congruence].
  intros Hin%Hall. done.
Qed.

(** *** clearQueue and the workers *)

Lemma destroy_tasks_insert q (h : heap) p r :
  p ∉ promise <$> q →
  destroy_tasks q (<[p := r]> h) = <[p := r]> (destroy_tasks q h).
Proof.
  induction q as [|t q IH]; csimpl; [done|].
  rewrite not_elem_of_cons. intros [Hne Hq]. rewrite IH by done.
  unfold promise_destroy. rewrite list_lookup_insert_ne by done.
  destruct (destroy_tasks q h !! promise t) as [[]|]; try done.
  by apply list_insert_insert_ne.
Qed.

Lemma clear_commutes N s i th :
  inv N s → terminated s = false → alive s = true →
  m_threads s !! i = Some th → pc th ≠ Waiting →
  step (Work i) (clearQueue s) = clearQueue <$> step (Work i) s.
Proof.
  intros Hinv Hterm Halive Hth Hpc.
  pose proof (inv_step _ _ _ _ Hinv (Step_clear s Hterm Halive)) as Hinv1.
  unfold step. simpl. rewrite Hterm. unfold worker_step. simpl. rewrite Hth.
  destruct (pc th) as [|t|t|t|] eqn:Hpc'; simpl; try done.
  - assert (promise t ∉ promise <$> m_tasks s) as Hsep.
    { intros (u & Heq & Hu)%list_elem_of_fmap.
      eapply (sep_queue_held s u i th t); eauto using inv_nodup. by rewrite Hpc'. }
    unfold task_body. destruct (invoke t) as [r|e]; [|done].
    unfold set_value. rewrite destroy_tasks_lookup_other by done.
    destruct (shared s !! promise t) as [[]|]; try done.
    unfold set_pc, clearQueue. simpl. by rewrite destroy_tasks_insert.
  - pose proof (returned_ready N (clearQueue s) i th t Hinv1 Hth Hpc') as Hready.
    simpl in Hready. rewrite Hready.
    unfold set_pc, clearQueue. simpl.
    by rewrite (returned_ready N s i th t).
Qed.

(** ** Construction and the introspection functions *)

(** C9: for every N, a freshly constructed pool of N workers reports
    threadCount() = N, activeCount() = 0 and queuedCount() = 0; and as
    long as nothing is submitted (workers trying to run, clearQueue being
    called) the pool stays exactly as constructed. *)
Theorem fresh_pool_counts (N : nat) :
  threadCount (ThreadPool N) = Z.of_nat N ∧
  activeCount (ThreadPool N) = 0%Z ∧
  queuedCount (ThreadPool N) = 0%Z ∧
  (∀ i, step (Work i) (ThreadPool N) = None) ∧
  (∀ sched s,
     (∀ a, a ∈ sched → (∃ i, a = Work i) ∨ a = ClearQueue) →
     run sched (ThreadPool N) = Some s → s = ThreadPool N).
Proof.
  assert (∀ i, step (Work i) (ThreadPool N) = None) as Hidle.
  { intros i. unfold step, worker_step. simpl.
    destruct (replicate N _ !! i) as [th|] eqn:Hi; [|done].
    by apply lookup_replicate_1 in Hi as [-> _]. }
  split_and!; try done.
  - unfold threadCount. simpl. by rewrite length_replicate.
  - intros sched. induction sched as [|a sched IH]; simpl; intros s Hall.
    + by intros [= <-].
    + destruct (Hall a) as [[i ->]| ->]; [by left| |].
      * by rewrite Hidle.
      * unfold step. simpl. change (clearQueue (ThreadPool N)) with (ThreadPool N).
        apply IH. intros b Hb. apply Hall. by right.
Qed.

(** C10: in every reachable state of a live pool built with N workers,
    0 <= activeCount() <= N = threadCount().  The counter equals the
    number of workers between their increment and their decrement (given
    that N fits [size_t]), and a step changes it only when a worker that
    has dequeued a job increments it, or a worker whose job has returned
    decrements it. *)
Theorem active_count_bounded N s :
  reachable N s → alive s = true →
  (0 ≤ activeCount s ≤ Z.of_nat N)%Z ∧
  threadCount s = Z.of_nat N ∧
  ((Z.of_nat N < 2 ^ 64)%Z →
   activeCount s =
   Z.of_nat (count is_invoking (m_threads s) + count is_returned (m_threads s))) ∧
  (∀ a s', step a s = Some s' → activeCount s' ≠ activeCount s →
     ∃ i th t, a = Work i ∧ m_threads s !! i = Some th ∧
       ((pc th = Dequeued t ∧ activeCount s' = wrap64 (activeCount s + 1)) ∨
        (pc th = Returned t ∧ activeCount s' = wrap64 (activeCount s - 1)))).
Proof.
  intros Hinv%reachable_inv Halive.
  pose proof (inv_threads _ _ Hinv) as Hlen. rewrite Halive in Hlen.
  pose proof (inv_active _ _ Hinv) as Hact.
  pose proof (count_two_le_length is_invoking is_returned (m_threads s)) as Hle.
  assert (count is_invoking (m_threads s) + count is_returned (m_threads s) ≤ N) as Hn.
  { rewrite <- Hlen. apply Hle. intros th. unfold is_invoking, is_returned.
    by destruct (pc th). }
  split_and!.
  - unfold activeCount. rewrite Hact. apply Z.mod_pos_bound. lia.
  - unfold activeCount. rewrite Hact. etrans; [apply Z.mod_le; lia|]. lia.
  - unfold threadCount. by rewrite Hlen.
  - intros HN. unfold activeCount. rewrite Hact. apply Z.mod_small. lia.
  - intros a s' Hstep%step_Step Hne. unfold activeCount in *.
    destruct Hstep; simpl in *; try done; eauto 10.
Qed.

(** ** The worker loop *)

(** C2: a worker leaves its loop only in a step in which its stop has been
    requested and the queue is empty.  A waiting worker whose stop has
    been requested while jobs are queued dequeues the front job instead
    of leaving; left alone, it runs every queued job (each promise ends
    up holding what its callable returned) and leaves only then, with
    the queue empty. *)
Theorem worker_exits_only_when_drained N s i th :
  reachable N s → m_threads s !! i = Some th → terminated s = false →
  (∀ s' th', step (Work i) s = Some s' → m_threads s' !! i = Some th' →
     pc th' = Exited → stop_requested th = true ∧ m_tasks s = []) ∧
  (pc th = Waiting → stop_requested th = true →
     (∀ t q, m_tasks s = t :: q →
        ∃ s', step (Work i) s = Some s' ∧
              m_threads s' !! i = Some (JThread (Dequeued t) true) ∧
              m_tasks s' = q) ∧
     (Forall returns (m_tasks s) →
        ∃ s', run (replicate (4 * length (m_tasks s) + 1) (Work i)) s = Some s' ∧
              m_threads s' !! i = Some (JThread Exited true) ∧
              m_tasks s' = [] ∧
              ∀ t r, t ∈ m_tasks s → invoke t = Return r →
                     shared s' !! promise t = Some r)).
Proof.
  intros Hinv%reachable_inv Hth Hterm. split.
  - intros s' th' Hstep%step_Step Hth' Hpc'.
    inversion Hstep as [j th0 t q s0 ? Hth0 Hpc0 Hq0
                       | j th0 s0 ? Hth0 Hpc0 Hq0 Hs0
                       | j th0 t s0 ? Hth0 Hpc0
                       | j th0 t r s0 ? Hth0 Hpc0
                       | j th0 t e s0 ? Hth0 Hpc0
                       | j th0 t s0 ? Hth0 Hpc0| | | | | | ]; subst;
      try (rewrite set_pc_lookup in Hth' by done);
      simpl in Hth'; simplify_eq/=; try done; congruence.
  - intros Hpc Hstop. split.
    + intros t q Hq. eexists.
      rewrite (Step_step _ _ _ (Step_dequeue i th t q s Hterm Hth Hpc Hq)).
      split_and!; [done| |done].
      rewrite set_pc_lookup by done. by rewrite Hstop.
    + intros Hret. by eapply worker_drains.
Qed.

(** ** The queue discipline *)

(** C4: jobs leave the queue in the order in which they entered it.  For
    every schedule from construction, let the dequeue order be the order
    in which workers were handed jobs (the job a worker holds right after
    it has left the wait).  Each job handed out was the front of the queue
    at that moment.  The jobs handed out so far, followed by those still
    queued, form a subsequence of the handles in enqueue order (which
    never repeat), and are exactly the enqueue order as long as the queue
    has not been discarded.  Hence a job B enqueued after a job A is never
    handed to a worker while A is still queued, and two jobs that are
    both handed out are handed out in their enqueue order. *)
Theorem fifo_order N sched s :
  run sched (ThreadPool N) = Some s →
  let enq := log enqueued_by sched (ThreadPool N) in
  let deq := log taken_by sched (ThreadPool N) in
  NoDup enq ∧
  deq = log dequeued_by sched (ThreadPool N) ∧
  deq ++ (promise <$> m_tasks s) `sublist_of` enq ∧
  ((∀ a, a ∈ sched → discards a = false) → deq ++ (promise <$> m_tasks s) = enq) ∧
  (∀ A B, [A; B] `sublist_of` enq → B ∈ deq → A ∉ promise <$> m_tasks s) ∧
  (∀ A B, [A; B] `sublist_of` enq → A ∈ deq → B ∈ deq → [A; B] `sublist_of` deq).
Proof.
  intros Hrun enq deq.
  destruct (enqueue_log_fresh sched (ThreadPool N)) as [Hnd _].
  pose proof (fifo_run sched _ _ Hrun) as Hsub. simpl in Hsub.
  pose proof (fifo_run_exact sched _ _ Hrun) as Hexact. simpl in Hexact.
  assert (deq = log dequeued_by sched (ThreadPool N)) as Hfront
    by apply taken_log.
  rewrite <- Hfront in Hsub, Hexact.
  fold enq in Hnd, Hsub, Hexact.
  split_and!; [done..| |].
  - intros A B Hab HB HA.
    apply (sublist_order_unique enq A B Hnd Hab).
    etrans; [|exact Hsub].
    change [B; A] with ([B] ++ [A]).
    apply sublist_app; by apply singleton_sublist_l.
  - intros A B Hab HA HB.
    assert (deq `sublist_of` enq) as Hde.
    { etrans; [|exact Hsub]. by apply sublist_inserts_r. }
    apply list_elem_of_split in HA as (l1 & l2 & Hdeq).
    rewrite Hdeq in HB. apply elem_of_app in HB as [HB|HB].
    + exfalso. apply (sublist_order_unique enq A B Hnd Hab).
      etrans; [|exact Hde]. rewrite Hdeq.
      change [B; A] with ([B] ++ [A]).
      apply sublist_app; [by apply singleton_sublist_l|].
      apply singleton_sublist_l. by left.
    + apply elem_of_cons in HB as [->|HB].
      * exfalso. pose proof (sublist_NoDup _ _ Hnd Hab) as Haa.
        apply NoDup_cons in Haa as [Haa _]. apply Haa. by left.
      * rewrite Hdeq. apply sublist_inserts_l, sublist_skip.
        by apply singleton_sublist_l.
Qed.

(** ** Results and their handles *)

(** C6: the handle returned by submitting a callable with its arguments
    starts out pending; whenever observing it yields a result, that result
    is exactly what the callable returns for the arguments: the value if
    it returns one, a plain completion without value if it returns
    nothing.  The worker that runs the job produces that result, and it
    stays.  If some worker is in its loop and every pending callable
    returns, there is a schedule after which the handle yields the
    result. *)
Theorem result_propagation N s c a sched s' :
  reachable N s → alive s = true → terminated s = false →
  run sched (addJob c a s).2 = Some s' →
  let p := (addJob c a s).1 in
  step (AddJob c a) s = Some (addJob c a s).2 ∧
  future_get p (shared (addJob c a s).2) = None ∧
  (∀ x, future_get p (shared s') = Some (Return x) → callable_result c a = Some x) ∧
  (∀ i th x,
     m_threads s' !! i = Some th → pc th = Invoking (Task p c a) →
     terminated s' = false → callable_result c a = Some x →
     ∃ s'', step (Work i) s' = Some s'' ∧
            ∀ sched' s3, run sched' s'' = Some s3 →
                         future_get p (shared s3) = Some (Return x)) ∧
  (some_worker_in_loop s → (∀ u, u ∈ live_tasks s → returns u) →
   ∀ x, callable_result c a = Some x →
        ∃ sched' s2, run sched' (addJob c a s).2 = Some s2 ∧
                     future_get p (shared s2) = Some (Return x)).
Proof.
  intros Hinv%reachable_inv Halive Hterm Hrun p.
  pose proof (Step_add c a s Hterm Halive) as Hadd.
  pose proof (inv_step _ _ _ _ Hinv Hadd) as Hinv1.
  pose proof (inv_run _ _ _ _ Hinv1 Hrun) as Hinv'.
  set (t := Task p c a).
  assert (t ∈ live_tasks (addJob c a s).2) as Hlive.
  { unfold live_tasks. simpl. rewrite !elem_of_app. left. right. by left. }
  pose proof (live_fate _ _ _ Hinv1 Hlive) as Hfate.
  split_and!.
  - by apply Step_step.
  - unfold future_get. simpl. by rewrite lookup_app_r, Nat.sub_diag.
  - intros x Hget. unfold future_get in Hget.
    destruct (fate_or_broken_run N sched _ s' t Hinv1 Hrun (or_introl Hfate))
      as [[[_ Hnr]|(r & Hr & Hp)]|Hb]; simpl in *.
    + by rewrite Hnr in Hget.
    + rewrite Hp in Hget.
      apply invoke_callable_result in Hr as (x' & Hx' & Hres). simpl in Hx'.
      rewrite Hres in Hget. by simplify_eq.
    + by rewrite Hb in Hget.
  - intros i th x Hth Hpc Hterm' Hx.
    destruct (callable_result_invoke t x Hx) as (r & Hr & Hres).
    pose proof (inv_held _ _ Hinv' i th Hth) as Hnr. rewrite Hpc in Hnr.
    pose proof (Step_invoke i th t r s' Hterm' Hth Hpc Hr Hnr) as Hstep.
    eexists. split; [by apply Step_step|].
    intros sched' s3 Hrun'. unfold future_get.
    rewrite (ready_stable_run sched' _ s3 p r Hrun'); [done| |].
    + simpl. apply list_lookup_insert_eq. by eapply lookup_lt_Some.
    + by apply invoke_not_broken in Hr as [? _].
  - intros Hloop Hret x Hx.
    destruct (callable_result_invoke t x Hx) as (r & Hr & Hres).
    destruct (pool_drains N (addJob c a s).2) as (sched' & s2 & Hrun' & _ & _ & Hdone);
      [done|exact Hloop|done| |].
    + intros u [[Hu|Hu%list_elem_of_singleton]%elem_of_app|Hu]%elem_of_app.
      * apply Hret. apply elem_of_app. by left.
      * subst u. by exists r.
      * apply Hret. apply elem_of_app. by right.
    + exists sched', s2. split; [done|]. unfold future_get.
      pose proof (Hdone t r Hlive Hr) as Hp. simpl in Hp. by rewrite Hp.
Qed.

(** C7: clearQueue leaves the queue empty (queuedCount() = 0).  None of
    the jobs it discards ever runs: in every continuation such a job is
    never dequeued, no worker ever holds it, and its future stays
    broken.  The workers and the jobs they hold are untouched: the
    promise of a job already dequeued is still pending, it can never
    break, and its worker completes it with what the callable returns;
    the next step of a worker that is not waiting is the same whether
    clearQueue comes before or after it. *)
Theorem clear_queue_discards N s :
  reachable N s → alive s = true → terminated s = false →
  step ClearQueue s = Some (clearQueue s) ∧
  queuedCount (clearQueue s) = 0%Z ∧
  m_threads (clearQueue s) = m_threads s ∧
  (∀ t sched s',
     t ∈ m_tasks s → run sched (clearQueue s) = Some s' →
     (promise t ∉ log dequeued_by sched (clearQueue s)) ∧
     (promise t ∉ promise <$> live_tasks s') ∧
     future_get (promise t) (shared s') = Some (Throw (future_error broken_promise))) ∧
  (∀ i th t,
     m_threads s !! i = Some th → pc th = Dequeued t ∨ pc th = Invoking t →
     shared (clearQueue s) !! promise t = Some NotReady ∧
     (∀ sched s', run sched (clearQueue s) = Some s' → fate t s') ∧
     (∀ r, invoke t = Return r →
        ∃ k s', k ≤ 2 ∧ run (replicate k (Work i)) (clearQueue s) = Some s' ∧
                shared s' !! promise t = Some r)) ∧
  (∀ i th,
     m_threads s !! i = Some th → pc th ≠ Waiting →
     step (Work i) (clearQueue s) = clearQueue <$> step (Work i) s).
Proof.
  intros Hinv%reachable_inv Halive Hterm.
  pose proof (Step_clear s Hterm Halive) as Hclear.
  pose proof (inv_step _ _ _ _ Hinv Hclear) as Hinv1.
  split_and!; [by apply Step_step|done|done| | |].
  - intros t sched s' Ht Hrun.
    assert (shared (clearQueue s) !! promise t = Some broken) as Hb.
    { simpl. apply destroy_tasks_lookup_queued;
        [by eapply queue_nodup|done|by apply (inv_queued _ _ Hinv)]. }
    pose proof (ready_stable_run _ _ _ _ _ Hrun Hb) as Hb'.
    split_and!.
    + by eapply ready_never_dequeued.
    + eapply broken_not_live; [by eapply inv_run|by apply Hb'].
    + unfold future_get. by rewrite Hb'.
  - intros i th t Hth Hpc.
    assert (held_task (pc th) = Some t) as Hheld by (by destruct Hpc as [->| ->]).
    assert (t ∈ live_tasks (clearQueue s)) as Hlive.
    { apply elem_of_app. right. by eapply (in_flight_lookup (clearQueue s)). }
    assert (shared (clearQueue s) !! promise t = Some NotReady) as Hnr.
    { pose proof (inv_held _ _ Hinv1 i th Hth) as Hok.
      by destruct Hpc as [Hpc|Hpc]; rewrite Hpc in Hok. }
    split_and!; [done| |].
    + intros sched s' Hrun.
      eapply (fate_run_fresh N (length (shared (clearQueue s))));
        [done..| | |by left].
      * by intros u ?%elem_of_nil.
      * by eapply lookup_lt_Some.
    + intros r Hr. destruct Hpc as [Hpc|Hpc].
      * pose proof (Step_count_up i th t (clearQueue s) Hterm Hth Hpc) as S1.
        set (s1 := set_pc i th (Invoking t) _ _ _ _) in *.
        assert (m_threads s1 !! i = Some (JThread (Invoking t) (stop_requested th)))
          as Hth1 by (unfold s1; by rewrite set_pc_lookup).
        pose proof (Step_invoke i _ t r s1 Hterm Hth1 eq_refl Hr Hnr) as S2.
        eexists 2, _. split; [lia|]. simpl.
        rewrite (Step_step _ _ _ S1), (Step_step _ _ _ S2).
        split; [done|]. simpl. apply list_lookup_insert_eq.
        by eapply lookup_lt_Some.
      * pose proof (Step_invoke i th t r (clearQueue s) Hterm Hth Hpc Hr Hnr) as S1.
        eexists 1, _. split; [lia|]. simpl.
        rewrite (Step_step _ _ _ S1).
        split; [done|]. simpl. apply list_lookup_insert_eq.
        by eapply lookup_lt_Some.
  - intros i th Hth Hpc. by apply (clear_commutes N s i th).
Qed.


(** C8: observing the handle of a job whose closure was destroyed without
    the promise being fulfilled does not block and yields no value: it
    throws broken_promise.  This is what happens to every job discarded
    by clearQueue and to every job still queued when the destructor ends,
    and it stays that way. *)
Theorem destroyed_task_breaks_promise N s :
  reachable N s →
  (∀ p, p < length (shared s) → p ∉ promise <$> live_tasks s →
        (∀ st, shared s !! p = Some st → is_fulfilled st = false) →
        future_get p (shared s) = Some (Throw (future_error broken_promise))) ∧
  (∀ t s', t ∈ m_tasks s → step ClearQueue s = Some s' →
           future_get (promise t) (shared s') = Some (Throw (future_error broken_promise))) ∧
  (∀ t s', t ∈ m_tasks s → step DtorLeave s = Some s' →
           future_get (promise t) (shared s') = Some (Throw (future_error broken_promise))) ∧
  (∀ p sched s',
     future_get p (shared s) = Some (Throw (future_error broken_promise)) →
     run sched s = Some s' →
     future_get p (shared s') = Some (Throw (future_error broken_promise))).
Proof.
  intros Hinv%reachable_inv.
  assert (∀ t, t ∈ m_tasks s →
    future_get (promise t) (destroy_tasks (m_tasks s) (shared s))
    = Some (Throw (future_error broken_promise))) as Hq.
  { intros t Ht. unfold future_get.
    rewrite (destroy_tasks_lookup_queued _ _ t);
      [done|by eapply queue_nodup|done|by apply (inv_queued _ _ Hinv)]. }
  split_and!.
  - intros p Hp Hfree Hnf. unfold future_get.
    destruct (shared s !! p) as [st|] eqn:Hst; [|by apply lookup_ge_None in Hst; lia].
    destruct st as [| |v|e]; simpl.
    + by apply (inv_owned _ _ Hinv) in Hst.
    + by specialize (Hnf _ eq_refl).
    + by specialize (Hnf _ eq_refl).
    + by rewrite (inv_exn _ _ Hinv p e Hst).
  - intros t s' Ht Hstep%step_Step. inv Hstep. by apply Hq.
  - intros t s' Ht Hstep%step_Step. inv Hstep. by apply Hq.
  - intros p sched s' Hget Hrun. unfold future_get in *.
    destruct (shared s !! p) as [st|] eqn:Hst; [|done].
    rewrite (ready_stable_run _ _ _ _ _ Hrun Hst); [done|].
    by destruct st.
Qed.

(** ** Failing jobs *)

(** C1, as the code has it: nothing catches what a callable throws.  When
    a worker runs a job whose callable throws, the exception leaves the
    closure and the thread function, [std::terminate] is called and no
    thread of the program takes another step; the promise of the job is
    left as it was, so its future holds neither a value nor the
    exception.  In no reachable state does a future hold an exception
    thrown by a callable. *)
Theorem task_failure_terminates N s i th t e :
  reachable N s → m_threads s !! i = Some th → pc th = Invoking t →
  terminated s = false → invoke t = Throw e →
  (∃ s', step (Work i) s = Some s' ∧
         terminated s' = true ∧
         m_threads s' = m_threads s ∧ m_tasks s' = m_tasks s ∧
         shared s' = shared s ∧
         future_get (promise t) (shared s') = None ∧
         ∀ a, step a s' = None) ∧
  ¬ failure_captured s i t e ∧
  (∀ s' p e', reachable N s' →
              shared s' !! p ≠ Some (ReadyException (user_exception e'))).
Proof.
  intros Hreach Hth Hpc Hterm He.
  pose proof (reachable_inv _ _ Hreach) as Hinv.
  assert (task_body t (shared s) = Throw e) as Hbody
    by (unfold task_body; by rewrite He).
  pose proof (Step_step _ _ _ (Step_terminate i th t e s Hterm Hth Hpc Hbody)) as Hstep.
  split_and!.
  - eexists. split; [exact Hstep|]. split_and!; try done.
    unfold future_get. simpl.
    pose proof (inv_held _ _ Hinv i th Hth) as Hnr. rewrite Hpc in Hnr.
    by rewrite Hnr.
  - intros (s' & Hstep' & Hterm' & _). rewrite Hstep in Hstep'. by simplify_eq.
  - intros s' p e' Hinv'%reachable_inv Hp.
    by apply (inv_exn _ _ Hinv') in Hp.
Qed.

(** ** Accounting *)

(** C3, as the code has it: with K jobs submitted to a pool whose worker
    count fits [size_t],
      activeCount() + queuedCount() + completed
        + (workers that dequeued a job and have not yet incremented)
        + (jobs discarded unrun)
      = K + (workers whose job returned and that have not yet decremented),
    so the three reported counts add up to K whenever no worker is in one
    of the two windows and nothing was discarded.  A job held by a worker
    is never in the queue at the same time. *)
Theorem job_accounting N s :
  reachable N s → (Z.of_nat N < 2 ^ 64)%Z →
  (accounted s
   + Z.of_nat (count is_dequeued (m_threads s))
   + Z.of_nat (count is_broken (shared s))
   = Z.of_nat (submittedCount s) + Z.of_nat (count is_returned (m_threads s)))%Z ∧
  (count is_dequeued (m_threads s) = 0 → count is_returned (m_threads s) = 0 →
   count is_broken (shared s) = 0 →
   accounted s = Z.of_nat (submittedCount s)) ∧
  (∀ i th t, m_threads s !! i = Some th → held_task (pc th) = Some t →
             promise t ∉ promise <$> m_tasks s).
Proof.
  intros Hinv%reachable_inv HN.
  assert (accounted s
   + Z.of_nat (count is_dequeued (m_threads s))
   + Z.of_nat (count is_broken (shared s))
   = Z.of_nat (submittedCount s) + Z.of_nat (count is_returned (m_threads s)))%Z as Hsum.
  { unfold accounted, activeCount, queuedCount, completedCount, submittedCount.
    pose proof (inv_active _ _ Hinv) as Hact.
    pose proof (inv_count _ _ Hinv) as Hcnt.
    pose proof (heap_partition (shared s)) as Hpart.
    pose proof (count_two_le_length is_invoking is_returned (m_threads s)) as Hle.
    assert (count is_invoking (m_threads s) + count is_returned (m_threads s)
            ≤ length (m_threads s)) as Hn.
    { apply Hle. intros th. unfold is_invoking, is_returned. by destruct (pc th). }
    assert (length (m_threads s) ≤ N) as HlenN.
    { pose proof (inv_threads _ _ Hinv) as Hlen.
      destruct (alive s); [lia|]. destruct Hlen as [-> _]. simpl. lia. }
    rewrite Hact. unfold wrap64. rewrite Z.mod_small by lia. lia. }
  split_and!; [done| |].
  - intros Hd Hr Hb. rewrite Hd, Hr, Hb in Hsum. lia.
  - intros i th t Hth Hheld (u & Heq & Hu)%list_elem_of_fmap.
    by eapply (sep_queue_held s u i th t); eauto using inv_nodup.
Qed.

(** ** Teardown *)


(** * Further properties of the header *)

(** ** The promise of a running job *)

Lemma gone_stuck N s a : inv N s → owner s = Gone → step a s = None.
Proof.
  intros Hinv Ho. pose proof (inv_threads _ _ Hinv) as Hths.
  unfold alive in Hths. rewrite Ho in Hths. destruct Hths as [Hths _].
  unfold step. destruct (terminated s); [done|].
  destruct a; simpl; unfold worker_step, alive, dtor_enter, dtor_request_stop,
    dtor_join, dtor_leave; rewrite ?Ho, ?Hths; done.
Qed.

(** X1: the closure built by addJob never fails on its own promise.  In
    every reachable state, when a worker is about to run a job, the
    promise is still unsatisfied: the closure throws only what the
    callable throws, and otherwise stores the result.  When the worker
    drops its copy of the closure after the call, the promise is already
    satisfied and is not broken. *)
Theorem closure_promise_is_fresh N s i th t :
  reachable N s → m_threads s !! i = Some th →
  (pc th = Invoking t →
     (∀ e, task_body t (shared s) = Throw e → invoke t = Throw e) ∧
     (∀ r, invoke t = Return r →
           task_body t (shared s) = Return (<[promise t := r]> (shared s)))) ∧
  (pc th = Returned t →
     promise_destroy (promise t) (shared s) = shared s ∧
     ∃ x, future_get (promise t) (shared s) = Some (Return x)).
Proof.
  intros Hinv%reachable_inv Hth.
  pose proof (inv_held _ _ Hinv i th Hth) as Hok. split.
  - intros Hpc. rewrite Hpc in Hok. simpl in Hok.
    unfold task_body, set_value. rewrite Hok. split.
    + intros e. destruct (invoke t); [done|]. by intros [= ->].
    + by intros r ->.
  - intros Hpc. split; [by eapply returned_ready|].
    rewrite Hpc in Hok. destruct Hok as (r & Hr & Hp).
    apply invoke_callable_result in Hr as (x & _ & Hx).
    exists x. unfold future_get. by rewrite Hp.
Qed.

(** ** Who runs what *)

(** X3: no two workers ever hold the same job.  In every reachable state
    the jobs held by two different workers have different promises. *)
Theorem workers_hold_distinct_jobs N s i j th th' t t' :
  reachable N s → i ≠ j →
  m_threads s !! i = Some th → m_threads s !! j = Some th' →
  held_task (pc th) = Some t → held_task (pc th') = Some t' →
  promise t ≠ promise t' ∧ t ≠ t'.
Proof.
  intros Hinv%reachable_inv Hne Hi Hj Ht Ht'.
  assert (promise t ≠ promise t') as Hp.
  { eapply (sep_held_held s i j th th' t t'); eauto using inv_nodup. }
  split; [done|]. by intros ->.
Qed.

(** ** After the destructor *)

(** X5: once the destructor has returned, no future of the pool blocks:
    every handle handed out by addJob holds a result or broken_promise,
    and nothing of the pool runs any more. *)
Theorem no_future_blocks_after_destruction N s :
  reachable N s → owner s = Gone →
  (∀ p, future_get p (shared s) ≠ None) ∧
  (∀ p, p < length (shared s) →
        (∃ x, future_get p (shared s) = Some (Return x)) ∨
        future_get p (shared s) = Some (Throw (future_error broken_promise))) ∧
  (∀ a, step a s = None).
Proof.
  intros Hinv%reachable_inv Ho.
  pose proof (inv_threads _ _ Hinv) as Hths.
  unfold alive in Hths. rewrite Ho in Hths. destruct Hths as [Hths Hq].
  assert (∀ p, shared s !! p ≠ Some NotReady) as Hnr.
  { intros p Hp%(inv_owned _ _ Hinv).
    unfold live_tasks, in_flight in Hp. rewrite Hths, Hq in Hp.
    by apply elem_of_nil in Hp. }
  split_and!.
  - intros p. unfold future_get.
    destruct (shared s !! p) as [[]|] eqn:Hp; try done. by destruct (Hnr p).
  - intros p Hlt. unfold future_get.
    destruct (lookup_lt_is_Some_2 _ _ Hlt) as [st Hst]. rewrite Hst.
    destruct st as [| |v|e]; simpl; eauto.
    + by destruct (Hnr p).
    + right. by rewrite (inv_exn _ _ Hinv p e Hst).
  - intros a. by eapply gone_stuck.
Qed.

(** ** How the stop requests are delivered *)

(** X11: as long as the destructor has not started, no worker has been
    asked to stop and none has left its loop.  The destructor stops the
    workers one at a time: at most one worker has a stop request pending
    and is still in its loop, and a worker that has left had been asked
    to stop. *)
Theorem stops_come_one_at_a_time N s :
  reachable N s →
  (owner s = Using →
   ∀ i th, m_threads s !! i = Some th →
           stop_requested th = false ∧ pc th ≠ Exited) ∧
  (∀ i j th th',
     m_threads s !! i = Some th → m_threads s !! j = Some th' →
     stop_requested th = true → pc th ≠ Exited →
     stop_requested th' = true → pc th' ≠ Exited → i = j) ∧
  (∀ i th, m_threads s !! i = Some th → pc th = Exited →
           stop_requested th = true).
Proof.
  intros Hinv%reachable_inv. pose proof (inv_stop _ _ Hinv) as Hstop.
  split_and!.
  - intros Ho i th Hth. destruct (Hstop i th Hth) as [H1 H2].
    destruct (stop_requested th) eqn:Hs.
    + by destruct (H2 eq_refl) as [? _].
    + split; [done|]. intros Hpc. by specialize (H1 Hpc).
  - intros i j th th' Hi Hj Hs Hpc Hs' Hpc'.
    destruct (Hstop i th Hi) as [_ H2]. destruct (Hstop j th' Hj) as [_ H2'].
    destruct (H2 Hs) as [_ [Ho|?]]; [|done].
    destruct (H2' Hs') as [_ [Ho'|?]]; [|done]. congruence.
  - intros i th Hth Hpc. by destruct (Hstop i th Hth) as [H1 _]; apply H1.
Qed.

(** ** Every job runs at most once *)

Lemma log_terminated ev sched s : terminated s = true → log ev sched s = [].
Proof.
  intros Ht. destruct sched as [|a sched]; [done|]. simpl.
  unfold step. by rewrite Ht.
Qed.

Lemma ready_never_invoked N sched :
  ∀ s p r, inv N s → shared s !! p = Some r → r ≠ NotReady →
           p ∉ log invoked_by sched s.
Proof.
  induction sched as [|a sched IH]; intros s p r Hinv Hp Hr; simpl.
  - by intros ?%elem_of_nil.
  - destruct (step a s) as [s1|] eqn:Hs; [|by intros ?%elem_of_nil].
    apply step_Step in Hs. intros [Hin|Hin]%elem_of_app.
    + destruct a as [i| | | | | |]; simpl in Hin; try by apply elem_of_nil in Hin.
      destruct (m_threads s !! i) as [th|] eqn:Hth; [|by apply elem_of_nil in Hin].
      pose proof (inv_held _ _ Hinv i th Hth) as Hok.
      destruct (pc th); try by apply elem_of_nil in Hin.
      apply list_elem_of_singleton in Hin as ->. simpl in Hok.
      rewrite Hok in Hp. by simplify_eq.
    + eapply (IH s1 p r); [by eapply inv_step| |done..].
      by eapply ready_stable_step.
Qed.

Lemma invoke_log_nodup N sched : ∀ s, inv N s → NoDup (log invoked_by sched s).
Proof.
  induction sched as [|a sched IH]; intros s Hinv; simpl; [apply NoDup_nil_2|].
  destruct (step a s) as [s1|] eqn:Hs; [|apply NoDup_nil_2].
  apply step_Step in Hs. pose proof (inv_step _ _ _ _ Hinv Hs) as Hinv1.
  apply NoDup_app. split_and!; [|intros p Hp Hin|by apply IH].
  - destruct a as [i| | | | | |]; simpl; try apply NoDup_nil_2.
    destruct (m_threads s !! i) as [th|]; [|apply NoDup_nil_2].
    destruct (pc th); try apply NoDup_nil_2. apply NoDup_singleton.
  - inversion Hs as [ | | | i th t r s0 ? Hth Hpc Hinvoke Hnr
                     | i th t e s0 ? Hth Hpc Hbody | | | | | | | ]; subst;
      simpl in Hp; rewrite ?Hth in Hp; simpl in Hp;
      try (by apply elem_of_nil in Hp);
      try (match goal with
           | H : m_threads _ !! _ = Some _ |- _ => rewrite H in Hp
           end;
           match goal with
           | H : pc _ = _ |- _ => rewrite H in Hp
           end; by apply elem_of_nil in Hp).
    + rewrite Hpc in Hp. apply list_elem_of_singleton in Hp as ->.
      eapply (ready_never_invoked N sched _ (promise t) r); [exact Hinv1| | |exact Hin].
      * simpl. apply list_lookup_insert_eq. by eapply lookup_lt_Some.
      * by apply invoke_not_broken in Hinvoke as [? _].
    + rewrite log_terminated in Hin by done. by apply elem_of_nil in Hin.
Qed.

Lemma in_flight_grow a s s' t :
  Step a s s' → t ∈ in_flight s' →
  t ∈ in_flight s ∨ promise t ∈ dequeued_by a s.
Proof.
  intros Hstep.
  destruct Hstep as [i th u q s ? Hth Hpc Hqs| i th s ? Hth Hpc Hqs| i th u s ? Hth Hpc
                    | i th u r s ? Hth Hpc Hinvoke Hp| | i th u s ? Hth Hpc| c v s | s | s
                    | i th s ? Ho Hth Hs | | s ];
    unfold in_flight; simpl; try (by left).
  - rewrite (flights_take _ _ th _ u) by (done || by rewrite Hpc).
    intros [->|?]%elem_of_cons; [right|by left].
    rewrite Hth, Hqs, Hpc. by left.
  - rewrite (flights_keep _ _ th) by (done || by rewrite Hpc). by left.
  - rewrite (flights_keep _ _ th) by (done || by rewrite Hpc). by left.
  - rewrite (flights_keep _ _ th) by (done || by rewrite Hpc). by left.
  - rewrite <- (flights_drop (m_threads s) i th (JThread Waiting (stop_requested th)) u)
      by (done || by rewrite Hpc).
    intros ?. left. by right.
  - rewrite (flights_keep _ _ th) by done. by left.
  - by intros ?%elem_of_nil.
Qed.

Lemma invoked_were_held sched :
  ∀ s p, p ∈ log invoked_by sched s →
         p ∈ promise <$> in_flight s ∨ p ∈ log dequeued_by sched s.
Proof.
  induction sched as [|a sched IH]; intros s p; simpl; [by intros ?%elem_of_nil|].
  destruct (step a s) as [s1|] eqn:Hs; [|by intros ?%elem_of_nil].
  apply step_Step in Hs. intros [Hin|Hin]%elem_of_app.
  - left. destruct a as [i| | | | | |]; simpl in Hin; try by apply elem_of_nil in Hin.
    destruct (m_threads s !! i) as [th|] eqn:Hth; [|by apply elem_of_nil in Hin].
    destruct (pc th) as [|u|u|u|] eqn:Hpc; try by apply elem_of_nil in Hin.
    apply list_elem_of_singleton in Hin as ->.
    apply list_elem_of_fmap_2. eapply in_flight_lookup; [done|]. by rewrite Hpc.
  - destruct (IH s1 p Hin) as [(t & -> & Ht)%list_elem_of_fmap|Hd].
    + destruct (in_flight_grow _ _ _ _ Hs Ht) as [?|?].
      * left. by apply list_elem_of_fmap_2.
      * right. apply elem_of_app. by left.
    + right. apply elem_of_app. by right.
Qed.

Lemma in_flight_init N : in_flight (ThreadPool N) = [].
Proof.
  unfold in_flight. simpl. induction N as [|n IH]; [done|]. by simpl.
Qed.

(** X2: every job runs at most once, and only after it has been taken
    from the queue.  For every schedule from construction no handle is
    dequeued twice, no callable is invoked twice, every invoked job had
    been dequeued and every dequeued job had been enqueued. *)
Theorem jobs_run_at_most_once N sched s :
  run sched (ThreadPool N) = Some s →
  let enq := log enqueued_by sched (ThreadPool N) in
  let deq := log dequeued_by sched (ThreadPool N) in
  let ran := log invoked_by sched (ThreadPool N) in
  NoDup deq ∧ NoDup ran ∧
  (∀ p, p ∈ ran → p ∈ deq) ∧ (∀ p, p ∈ deq → p ∈ enq).
Proof.
  intros Hrun enq deq ran.
  destruct (enqueue_log_fresh sched (ThreadPool N)) as [Hnd _].
  pose proof (fifo_run sched _ _ Hrun) as Hsub. simpl in Hsub.
  fold enq deq in Hnd, Hsub.
  assert (deq `sublist_of` enq) as Hde.
  { etrans; [|exact Hsub]. by apply sublist_inserts_r. }
  split_and!.
  - by eapply sublist_NoDup.
  - apply (invoke_log_nodup N). apply inv_init.
  - intros p Hp. destruct (invoked_were_held sched _ p Hp) as [Hin|?]; [|done].
    assert (in_flight (ThreadPool N) = []) as Hnil.
    { apply in_flight_init. }
    rewrite Hnil in Hin. by apply elem_of_nil in Hin.
  - intros p Hp. by eapply elem_of_sublist.
Qed.

(** ** A pool without workers *)

Lemma count_pos {A} (f : A → bool) l x : x ∈ l → f x = true → 0 < count f l.
Proof.
  induction l as [|y l IH]; [by intros ?%elem_of_nil|].
  rewrite count_cons. intros [->|Hx]%elem_of_cons Hf.
  - rewrite Hf. lia.
  - specialize (IH Hx Hf). lia.
Qed.

Lemma promise_destroy_fulfilled p (h : heap) :
  count is_fulfilled (promise_destroy p h) = count is_fulfilled h.
Proof.
  unfold promise_destroy. destruct (h !! p) as [[]|] eqn:Hp; try done.
  pose proof (count_insert is_fulfilled _ _ _
    (ReadyException (future_error broken_promise)) Hp) as Hc.
  simpl in Hc. lia.
Qed.

Lemma destroy_tasks_fulfilled q (h : heap) :
  count is_fulfilled (destroy_tasks q h) = count is_fulfilled h.
Proof.
  induction q as [|t q IH]; csimpl; [done|]. by rewrite promise_destroy_fulfilled.
Qed.

Lemma no_workers_step a s s' :
  Step a s s' → m_threads s = [] → count is_fulfilled (shared s) = 0 →
  m_threads s' = [] ∧ count is_fulfilled (shared s') = 0.
Proof.
  intros Hstep Hths Hc.
  destruct Hstep as [i th t q s ? Hth| i th s ? Hth| i th t s ? Hth
                    | i th t r s ? Hth| | i th t s ? Hth| c v s | s | s
                    | i th s ? Ho Hth | | s ];
    simpl; try (by rewrite Hths in Hth); try done.
  - split; [done|]. rewrite count_app, count_cons, count_nil. simpl. lia.
  - split; [done|]. by rewrite destroy_tasks_fulfilled.
  - split; [done|]. by rewrite destroy_tasks_fulfilled.
Qed.

Lemma no_workers_run sched :
  ∀ s s', run sched s = Some s' → m_threads s = [] →
          count is_fulfilled (shared s) = 0 →
          m_threads s' = [] ∧ count is_fulfilled (shared s') = 0.
Proof.
  induction sched as [|a sched IH]; simpl; intros s s' Hrun Hths Hc.
  - by simplify_eq.
  - destruct (step a s) as [s1|] eqn:Hs; [|done]. apply step_Step in Hs.
    destruct (no_workers_step _ _ _ Hs Hths Hc). by apply (IH s1).
Qed.

(** X4: a pool constructed with 0 workers never runs anything.  In every
    reachable state there is no thread, no worker step is possible,
    activeCount() is 0, no job has completed and no future yields a
    result; every job submitted so far is either still queued or has been
    discarded. *)
Theorem zero_workers_never_run s :
  reachable 0 s →
  threadCount s = 0%Z ∧ activeCount s = 0%Z ∧ completedCount s = 0 ∧
  (∀ i, step (Work i) s = None) ∧
  (∀ p x, future_get p (shared s) ≠ Some (Return x)) ∧
  submittedCount s = length (m_tasks s) + count is_broken (shared s).
Proof.
  intros Hreach. pose proof (reachable_inv _ _ Hreach) as Hinv.
  destruct Hreach as [sched Hrun].
  destruct (no_workers_run sched _ _ Hrun eq_refl eq_refl) as [Hths Hc].
  split_and!.
  - unfold threadCount. by rewrite Hths.
  - unfold activeCount. rewrite (inv_active _ _ Hinv), Hths. done.
  - done.
  - intros i. unfold step, worker_step. rewrite Hths.
    by destruct (terminated s).
  - intros p x Hget. unfold future_get in Hget.
    destruct (shared s !! p) as [st|] eqn:Hp; [|done].
    assert (is_fulfilled st = true) as Hf by (by destruct st).
    pose proof (count_pos is_fulfilled _ st (list_elem_of_lookup_2 _ _ _ Hp) Hf). lia.
  - unfold submittedCount. rewrite (heap_partition (shared s)), Hc.
    rewrite (inv_count _ _ Hinv), Hths, !count_nil. lia.
Qed.

(** ** Teardown never goes back *)

Lemma irreversible_step a s s' :
  Step a s s' →
  phase (owner s) ≤ phase (owner s') ∧
  ∀ i th, m_threads s !! i = Some th → owner s' ≠ Gone →
          ∃ th', m_threads s' !! i = Some th' ∧
                 (stop_requested th = true → stop_requested th' = true) ∧
                 (pc th = Exited → pc th' = Exited).
Proof.
  intros Hstep.
  destruct Hstep as [j th0 t q s ? Hth Hpc| j th0 s ? Hth Hpc| j th0 t s ? Hth Hpc
                    | j th0 t r s ? Hth Hpc| | j th0 t s ? Hth Hpc| c v s | s | s ? Ho
                    | j th0 s ? Ho Hth Hs | j th0 s ? Ho | s ? Ho ];
    simpl; rewrite ?Ho; simpl; (split; [lia|]); try (by eauto);
    try (intros i th Hi _; destruct (decide (j = i)) as [->|Hne];
         [ assert (th = th0) as -> by congruence;
           eexists; split;
           [apply list_lookup_insert_eq; by eapply lookup_lt_Some
           |simpl; split; [done|congruence]]
         | exists th; by rewrite list_lookup_insert_ne ]).
Qed.

(** X10: teardown never goes back.  Along every schedule the owner only
    moves forward (in use, destroying, gone), and as long as the pool
    object exists a stop request is never withdrawn and a worker that
    has left its loop never re-enters it. *)
Theorem teardown_is_irreversible sched :
  ∀ s s', run sched s = Some s' →
    phase (owner s) ≤ phase (owner s') ∧
    ∀ i th, m_threads s !! i = Some th → owner s' ≠ Gone →
            ∃ th', m_threads s' !! i = Some th' ∧
                   (stop_requested th = true → stop_requested th' = true) ∧
                   (pc th = Exited → pc th' = Exited).
Proof.
  induction sched as [|a sched IH]; simpl; intros s s' Hrun.
  - simplify_eq. split; [done|]. eauto.
  - destruct (step a s) as [s1|] eqn:Hs; [|done]. apply step_Step in Hs.
    destruct (irreversible_step _ _ _ Hs) as [Hph Hkeep].
    destruct (IH s1 s' Hrun) as [Hph' Hkeep']. split; [lia|].
    intros i th Hth Hgone.
    destruct (Hkeep i th Hth) as (th1 & Hth1 & Hs1 & Hp1).
    { intros Ho. rewrite Ho in Hph'. simpl in Hph'.
      destruct (owner s') as [| |]; simpl in *; try lia. done. }
    destruct (Hkeep' i th1 Hth1 Hgone) as (th' & Hth' & Hs' & Hp').
    exists th'. split_and!; auto.
Qed.

(** ** Counting what was discarded *)

Lemma destroy_tasks_broken q (h : heap) :
  NoDup (promise <$> q) → (∀ t, t ∈ q → h !! promise t = Some NotReady) →
  count is_broken (destroy_tasks q h) = count is_broken h + length q.
Proof.
  intros Hnd Hq.
  pose proof (destroy_tasks_count q h Hnd Hq) as Hn.
  pose proof (destroy_tasks_fulfilled q h) as Hf.
  pose proof (destroy_tasks_length q h) as Hl.
  rewrite (heap_partition (destroy_tasks q h)), (heap_partition h) in Hl. lia.
Qed.

Lemma broken_count_step N a s s' :
  inv N s → Step a s s' →
  count is_broken (shared s') =
  count is_broken (shared s) + (if discards a then length (m_tasks s) else 0).
Proof.
  intros Hinv Hstep.
  destruct Hstep as [ | | | i th t r s ? Hth Hpc Hinvoke Hp | | i th t s ? Hth Hpc
                    | c v s | s | | | | s ]; simpl; try lia.
  - pose proof (count_insert is_broken _ _ _ r Hp) as Hc.
    apply invoke_ready in Hinvoke. destruct r; simplify_eq/=; lia.
  - rewrite (returned_ready N s i th t) by done. lia.
  - rewrite count_app, count_cons, count_nil. simpl. lia.
  - apply destroy_tasks_broken; [by eapply queue_nodup|by apply (inv_queued _ _ Hinv)].
  - apply destroy_tasks_broken; [by eapply queue_nodup|by apply (inv_queued _ _ Hinv)].
Qed.

Lemma quiet_queue_run N sched :
  ∀ s s', inv N s → m_tasks s = [] → (∀ a, a ∈ sched → is_add a = false) →
          run sched s = Some s' →
          m_tasks s' = [] ∧
          count is_broken (shared s') = count is_broken (shared s) ∧
          length (shared s') = length (shared s).
Proof.
  induction sched as [|a sched IH]; simpl; intros s s' Hinv Hq Hna Hrun.
  - by simplify_eq.
  - destruct (step a s) as [s1|] eqn:Hs; [|done]. apply step_Step in Hs.
    pose proof (broken_count_step _ _ _ _ Hinv Hs) as Hb.
    pose proof (shared_length_step _ _ _ Hs) as Hl.
    assert (is_add a = false) as Ha by (apply Hna; by left).
    assert (m_tasks s1 = []) as Hq1.
    { destruct Hs; simpl in *; try done; congruence. }
    destruct (IH s1 s') as (Hq' & Hb' & Hl');
      [by eapply inv_step|done|intros; apply Hna; by right|done|].
    rewrite Hq in Hb. simpl in Hb.
    split_and!; [done| |].
    + rewrite Hb', Hb. destruct (discards a); lia.
    + rewrite Hl', Hl. by destruct a.
Qed.

Lemma gone_counts N s :
  inv N s → owner s = Gone →
  submittedCount s = completedCount s + count is_broken (shared s).
Proof.
  intros Hinv Ho. pose proof (inv_threads _ _ Hinv) as Hths.
  unfold alive in Hths. rewrite Ho in Hths. destruct Hths as [Hths Hq].
  pose proof (inv_count _ _ Hinv) as Hc. rewrite Hths, Hq, !count_nil in Hc.
  unfold submittedCount, completedCount.
  rewrite (heap_partition (shared s)). simpl in Hc. lia.
Qed.

(** X9: clearQueue followed by the destructor is a bounded shutdown.  If
    nothing is submitted after the clearQueue, then when the destructor
    has returned exactly the jobs that workers had in hand at the
    clearQueue (dequeued, not yet returned) have completed in addition to
    those completed before; the discarded ones have not. *)
Theorem bounded_shutdown N s sched s1 :
  reachable N s → alive s = true → terminated s = false →
  (∀ a, a ∈ sched → is_add a = false) →
  run (ClearQueue :: sched) s = Some s1 → owner s1 = Gone →
  submittedCount s1 = submittedCount s ∧
  completedCount s1 =
  completedCount s + count is_dequeued (m_threads s) + count is_invoking (m_threads s) ∧
  count is_broken (shared s1) = count is_broken (shared s) + length (m_tasks s).
Proof.
  intros Hinv%reachable_inv Halive Hterm Hna Hrun Ho.
  pose proof (Step_clear s Hterm Halive) as Hclear.
  simpl in Hrun. rewrite (Step_step _ _ _ Hclear) in Hrun.
  pose proof (inv_step _ _ _ _ Hinv Hclear) as Hinv1.
  destruct (quiet_queue_run N sched _ _ Hinv1 eq_refl Hna Hrun) as (_ & Hb & Hl).
  pose proof (broken_count_step _ _ _ _ Hinv Hclear) as Hbc. simpl in Hbc.
  pose proof (gone_counts N s1 (inv_run _ _ _ _ Hinv1 Hrun) Ho) as Hg.
  pose proof (inv_count _ _ Hinv) as Hc.
  pose proof (heap_partition (shared s)) as Hp.
  simpl in Hl. rewrite destroy_tasks_length in Hl.
  unfold submittedCount, completedCount in *. simpl in Hb. lia.
Qed.

(** ** Submitting and then destroying the pool *)

Lemma submit_destroy_get N s c a sched s1 :
  inv N s → some_worker_in_loop s → alive s = true → terminated s = false →
  run (AddJob c a :: sched) s = Some s1 → ClearQueue ∉ sched → owner s1 = Gone →
  ∃ x, callable_result c a = Some x ∧
       future_get (length (shared s)) (shared s1) = Some (Return x).
Proof.
  intros Hinv Hloop Halive Hterm Hrun Hnc Ho.
  pose proof (Step_add c a s Hterm Halive) as Hadd.
  simpl in Hrun. rewrite (Step_step _ _ _ Hadd) in Hrun.
  pose proof (inv_step _ _ _ _ Hinv Hadd) as Hinv1.
  set (t := Task (length (shared s)) c a).
  destruct (drained_results N (addJob c a s).2 sched s1 t) as (r & Hr & Hp);
    [done|exact Hloop|done..| |].
  { unfold live_tasks. simpl. rewrite !elem_of_app. left. right. by left. }
  apply invoke_callable_result in Hr as (x & Hx & Hres).
  exists x. split; [done|]. unfold future_get. simpl in Hp. by rewrite Hp.
Qed.

(** X6: a job submitted to a pool in which some worker is in its loop is
    finished by the time the destructor has returned.  For every
    schedule in which clearQueue is not called, once the destructor has
    returned the future of the job yields what the callable returns for
    its arguments; it neither blocks nor is broken.  (So the destructor
    does not return if the callable throws.) *)
Theorem submit_then_destroy N s c a sched s1 :
  reachable N s → some_worker_in_loop s → alive s = true → terminated s = false →
  run (AddJob c a :: sched) s = Some s1 → ClearQueue ∉ sched → owner s1 = Gone →
  ∃ x, callable_result c a = Some x ∧
       future_get (addJob c a s).1 (shared s1) = Some (Return x).
Proof.
  intros Hinv%reachable_inv. by apply (submit_destroy_get N).
Qed.

(** ** Using the pool only through addJob *)

Lemma no_broken_while_using N sched :
  ∀ s s', inv N s → count is_broken (shared s) = 0 → ClearQueue ∉ sched →
          run sched s = Some s' → owner s' = Using →
          count is_broken (shared s') = 0.
Proof.
  induction sched as [|a sched IH]; simpl; intros s s' Hinv Hb Hnc Hrun Ho.
  - by simplify_eq.
  - destruct (step a s) as [s1|] eqn:Hs; [|done]. apply step_Step in Hs.
    apply not_elem_of_cons in Hnc as [Hne Hnc].
    pose proof (inv_step _ _ _ _ Hinv Hs) as Hinv1.
    pose proof (broken_count_step _ _ _ _ Hinv Hs) as Hbc.
    apply (IH s1 s'); [done| |done..].
    destruct Hs; simpl in *; try lia; try done.
    (* leaving the destructor: nothing can follow, but the pool is in use *)
    exfalso. destruct sched as [|b sched]; simpl in Hrun.
    + by simplify_eq.
    + by rewrite (gone_stuck N _ b Hinv1 eq_refl) in Hrun.
Qed.

Lemma teardown_no_broken N K sched :
  ∀ s s', inv N s → late_only K s → length (shared s) = K →
          count is_broken (shared s) = 0 → ClearQueue ∉ sched →
          (∀ a, a ∈ sched → is_add a = false) →
          run sched s = Some s' →
          count is_broken (shared s') = 0 ∧ length (shared s') = K.
Proof.
  induction sched as [|a sched IH]; simpl; intros s s' Hinv Hlate HK Hb Hnc Hna Hrun.
  - by simplify_eq.
  - destruct (step a s) as [s1|] eqn:Hs; [|done]. apply step_Step in Hs.
    apply not_elem_of_cons in Hnc as [Hne Hnc].
    assert (is_add a = false) as Ha by (apply Hna; by left).
    pose proof (broken_count_step _ _ _ _ Hinv Hs) as Hbc.
    pose proof (shared_length_step _ _ _ Hs) as Hl.
    apply (IH s1 s'); [by eapply inv_step|by eapply late_only_step| | |done| |done].
    + rewrite Hl, HK. by destruct a.
    + rewrite Hbc, Hb. destruct Hs as [ | | | | | | | | | | | s ? Ho Hall]; try done.
      simpl. destruct Hlate as [_ Hlate].
      destruct (m_tasks s) as [|u q] eqn:Hq; [done|]. exfalso.
      pose proof (Hlate ltac:(by eapply all_exited) u ltac:(by left)) as Hge.
      pose proof (inv_queued _ _ Hinv u) as Hnr. rewrite Hq in Hnr.
      pose proof (lookup_lt_Some _ _ _ (Hnr ltac:(by left))). lia.
    + intros b Hb'. apply Hna. by right.
Qed.

(** X8: a pool with at least one worker that is used only through addJob
    and then destroyed runs every job.  If clearQueue is never called
    and nothing is submitted once the destructor has started, then for
    every schedule, when the destructor has returned, the number of
    completed jobs equals the number submitted and every future yields a
    result. *)
Theorem all_submitted_jobs_complete N sched1 sched2 s0 s1 :
  0 < N →
  run sched1 (ThreadPool N) = Some s0 → owner s0 = Using →
  run sched2 s0 = Some s1 → owner s1 = Gone →
  ClearQueue ∉ sched1 ++ sched2 →
  (∀ a, a ∈ sched2 → is_add a = false) →
  submittedCount s1 = submittedCount s0 ∧
  completedCount s1 = submittedCount s0 ∧
  ∀ p, p < submittedCount s0 → ∃ x, future_get p (shared s1) = Some (Return x).
Proof.
  intros HN Hrun1 Ho0 Hrun2 Ho1 Hnc Hna.
  apply not_elem_of_app in Hnc as [Hnc1 Hnc2].
  assert (reachable N s0) as Hreach by (by exists sched1).
  pose proof (reachable_inv _ _ Hreach) as Hinv0.
  pose proof (no_broken_while_using N sched1 _ s0 (inv_init N) eq_refl Hnc1 Hrun1 Ho0)
    as Hb0.
  destruct (worker_in_loop_before_teardown N s0 Hreach HN Ho0)
    as (i0 & th0 & Hth0 & Hpc0).
  assert (late_only (length (shared s0)) s0) as Hlate.
  { split; [done|]. intros Hall. destruct Hpc0. apply Hall.
    by eapply list_elem_of_lookup_2. }
  destruct (teardown_no_broken N _ sched2 s0 s1 Hinv0 Hlate eq_refl Hb0 Hnc2 Hna Hrun2)
    as [Hb1 Hl1].
  pose proof (inv_run _ _ _ _ Hinv0 Hrun2) as Hinv1.
  pose proof (gone_counts N s1 Hinv1 Ho1) as Hg.
  unfold submittedCount in *. split_and!; [done|lia|].
  intros p Hp. rewrite <- Hl1 in Hp.
  destruct (lookup_lt_is_Some_2 _ _ Hp) as [st Hst].
  unfold future_get. rewrite Hst.
  destruct st as [| |v|e]; simpl; eauto.
  - exfalso. apply (inv_owned _ _ Hinv1) in Hst.
    pose proof (inv_threads _ _ Hinv1) as Hths.
    unfold alive in Hths. rewrite Ho1 in Hths. destruct Hths as [Hths Hq].
    unfold live_tasks, in_flight in Hst. rewrite Hths, Hq in Hst.
    by apply elem_of_nil in Hst.
  - exfalso.
    pose proof (count_pos is_broken _ _ (list_elem_of_lookup_2 _ _ _ Hst) eq_refl). lia.
Qed.

(** ** A pool that is left alone settles *)










(** ** A saturated pool *)

Lemma count_all {A} (f : A → bool) l :
  (∀ x, x ∈ l → f x = true) → count f l = length l.
Proof.
  induction l as [|y l IH]; [done|]. intros Hall.
  rewrite count_cons, (Hall y) by left. simpl. f_equal.
  apply IH. intros. apply Hall. by right.
Qed.

Lemma count_none {A} (f : A → bool) l :
  (∀ x, x ∈ l → f x = false) → count f l = 0.
Proof.
  induction l as [|y l IH]; [done|]. intros Hall.
  rewrite count_cons, (Hall y) by left. simpl.
  apply IH. intros. apply Hall. by right.
Qed.

(** X13: the counts of a saturated pool.  Take a reachable state in which
    K jobs have been submitted, none has completed or been discarded,
    and every worker is either inside a job or waiting on an empty queue
    (no worker is between two steps of its loop).  Then activeCount() is
    min(K, N) and queuedCount() is K - min(K, N), for a worker count N
    that fits [size_t]. *)
Theorem busy_pool_counts N s :
  reachable N s → (Z.of_nat N < 2 ^ 64)%Z →
  completedCount s = 0 → count is_broken (shared s) = 0 →
  (∀ th, th ∈ m_threads s →
         is_invoking th = true ∨ (is_waiting th = true ∧ m_tasks s = [])) →
  activeCount s = Z.of_nat (submittedCount s `min` N) ∧
  queuedCount s = Z.of_nat (submittedCount s - submittedCount s `min` N).
Proof.
  intros Hinv%reachable_inv HN Hc Hb Hst.
  pose proof (inv_count _ _ Hinv) as Hcnt.
  pose proof (inv_active _ _ Hinv) as Hact.
  pose proof (heap_partition (shared s)) as Hp.
  pose proof (inv_threads _ _ Hinv) as Hlen.
  assert (count is_dequeued (m_threads s) = 0) as Hd.
  { apply count_none. intros th Hth. unfold is_dequeued.
    destruct (Hst th Hth) as [Hi|[Hw _]]; unfold is_invoking, is_waiting in *;
      by destruct (pc th). }
  assert (count is_returned (m_threads s) = 0) as Hr.
  { apply count_none. intros th Hth. unfold is_returned.
    destruct (Hst th Hth) as [Hi|[Hw _]]; unfold is_invoking, is_waiting in *;
      by destruct (pc th). }
  pose proof (count_two_le_length is_invoking is_returned (m_threads s)) as Hle.
  assert (count is_invoking (m_threads s) ≤ length (m_threads s)) as Hle'.
  { rewrite Hr in Hle. rewrite <- (Nat.add_0_r (count _ _)). apply Hle.
    intros th. unfold is_invoking, is_returned. by destruct (pc th). }
  assert (length (m_threads s) ≤ N) as HlenN.
  { destruct (alive s); [lia|]. destruct Hlen as [-> _]. simpl. lia. }
  unfold activeCount, queuedCount, submittedCount, completedCount in *.
  rewrite Hact, Hr, Nat.add_0_r. unfold wrap64. rewrite Z.mod_small by lia.
  destruct (m_tasks s) as [|t q] eqn:Hq.
  - simpl in *. split; f_equal; lia.
  - assert (count is_invoking (m_threads s) = length (m_threads s)) as Hall.
    { apply count_all. intros th Hth. by destruct (Hst th Hth) as [?|[_ ?]]. }
    assert (length (m_threads s) = N) as HlenN'.
    { destruct (alive s); [done|]. by destruct Hlen as [_ ?]. }
    simpl in *. split; f_equal; lia.
Qed.

End ThreadPool.

(** ** Concrete runs *)

(** C1 fails as stated: one worker, one job whose callable throws.  The
    step that runs the job does not leave the exception in the future
    with the pool alive. *)
Lemma task_failure_not_captured :
  let s := @after Z unit [AddJob (thrower ()) []; Work 0; Work 0] 1 in
  let t : @task Z unit := Task 0 (thrower ()) [] in
  reachable 1 s ∧
  m_threads s !! 0 = Some (JThread (Invoking t) false) ∧
  invoke t = Throw (user_exception ()) ∧
  ¬ failure_captured s 0 t (user_exception ()).
Proof.
  intros s t. split_and!.
  - by exists [AddJob (thrower ()) []; Work 0; Work 0].
  - reflexivity.
  - reflexivity.
  - intros (s' & Hstep & Hterm & _). vm_compute in Hstep.
    injection Hstep as <-. discriminate Hterm.
Qed.

Lemma task_failure_terminates_witness :
  let s := @after Z unit [AddJob (thrower ()) []; Work 0; Work 0] 1 in
  let t : @task Z unit := Task 0 (thrower ()) [] in
  reachable 1 s ∧
  m_threads s !! 0 = Some (JThread (Invoking t) false) ∧
  terminated s = false ∧
  invoke t = Throw (user_exception ()) ∧
  ∃ s', step (Work 0) s = Some s' ∧ terminated s' = true ∧
        future_get 0 (shared s') = None ∧ ∀ a, step a s' = None.
Proof.
  intros s t.
  assert (reachable 1 s) as Hreach
    by (by exists [AddJob (thrower ()) []; Work 0; Work 0]).
  split_and!; [done|reflexivity..|].
  destruct (task_failure_terminates 1 s 0 _ t (user_exception ()) Hreach
              eq_refl eq_refl eq_refl eq_refl)
    as [(s' & Hstep & Hterm & _ & _ & _ & Hget & Hstuck) _].
  exists s'. by split_and!.
Defined.

(** C3 fails as stated: one worker has dequeued the only job and has not
    yet incremented the counter; the job is in none of the three counts. *)
Lemma accounting_gap :
  let s := @after Z unit [AddJob noop []; Work 0] 1 in
  reachable 1 s ∧
  submittedCount s = 1 ∧
  activeCount s = 0%Z ∧ queuedCount s = 0%Z ∧ completedCount s = 0 ∧
  accounted s ≠ Z.of_nat (submittedCount s).
Proof.
  intros s. split_and!; try reflexivity.
  - by exists [AddJob noop []; Work 0].
  - vm_compute. discriminate.
Qed.

Lemma job_accounting_witness :
  let s := @after Z unit [AddJob noop []; Work 0] 1 in
  reachable 1 s ∧ (Z.of_nat 1 < 2 ^ 64)%Z ∧
  (accounted s + 1 + 0 = 1 + 0)%Z.
Proof.
  intros s.
  assert (reachable 1 s) as Hreach by (by exists [AddJob noop []; Work 0]).
  assert (Z.of_nat 1 < 2 ^ 64)%Z as HN by reflexivity.
  split_and!; [done..|].
  destruct (job_accounting 1 s Hreach HN) as (Hsum & _). exact Hsum.
Defined.



Lemma active_count_bounded_witness :
  let s := @after Z unit [AddJob noop []; AddJob noop []; Work 0; Work 0] 2 in
  reachable 2 s ∧ alive s = true ∧
  (0 ≤ activeCount s ≤ 2)%Z ∧ threadCount s = 2%Z ∧ activeCount s = 1%Z.
Proof.
  intros s.
  assert (reachable 2 s) as Hreach
    by (by exists [AddJob noop []; AddJob noop []; Work 0; Work 0]).
  split_and!; [done|reflexivity| | | |];
    destruct (active_count_bounded 2 s Hreach eq_refl) as ([Hlo Hhi] & Hn & Hcount & _);
    [exact Hlo|exact Hhi|exact Hn|].
  by rewrite Hcount.
Defined.

Lemma worker_exits_only_when_drained_witness :
  let s := @after Z unit
    [AddJob (constant 7%Z) []; AddJob noop []; DtorEnter; DtorRequestStop 0] 1 in
  reachable 1 s ∧
  m_threads s !! 0 = Some (JThread Waiting true) ∧
  terminated s = false ∧
  length (m_tasks s) = 2 ∧
  ∃ s', run (replicate 9 (Work 0)) s = Some s' ∧
        m_threads s' !! 0 = Some (JThread Exited true) ∧
        m_tasks s' = [] ∧
        shared s' !! 0 = Some (ReadyValue 7%Z) ∧ shared s' !! 1 = Some ReadyVoid.
Proof.
  intros s.
  assert (reachable 1 s) as Hreach
    by (by exists [AddJob (constant 7%Z) []; AddJob noop []; DtorEnter;
                   DtorRequestStop 0]).
  split_and!; [done|reflexivity..|].
  destruct (worker_exits_only_when_drained 1 s 0 _ Hreach eq_refl eq_refl)
    as [_ Hdrain].
  destruct (Hdrain eq_refl eq_refl) as [_ Hrun].
  destruct Hrun as (s' & Hrun & Hex & Hq & Hres).
  { repeat constructor; by eexists. }
  exists s'. split_and!; [exact Hrun|exact Hex|exact Hq| |].
  - apply (Hres (Task 0 (constant 7%Z) [])); [by left|reflexivity].
  - apply (Hres (Task 1 noop [])); [by right; left|reflexivity].
Defined.

Lemma fifo_order_witness :
  let sched : list (@action Z unit) :=
    [AddJob noop []; AddJob (constant 1%Z) []; AddJob noop [];
     Work 1; Work 0; ClearQueue; AddJob noop []; Work 1; Work 1; Work 1; Work 1] in
  run sched (ThreadPool 2) = Some (after sched 2) ∧
  log enqueued_by sched (ThreadPool 2) = [0; 1; 2; 3] ∧
  log taken_by sched (ThreadPool 2) = [0; 1; 3] ∧
  [0; 1; 3] ++ (promise <$> m_tasks (after sched 2)) `sublist_of` [0; 1; 2; 3].
Proof.
  intros sched. split_and!; [reflexivity..|].
  destruct (fifo_order 2 sched (after sched 2) eq_refl) as (_ & _ & Hsub & _).
  exact Hsub.
Defined.

Lemma result_propagation_witness :
  let double : @callable Z unit :=
    ValueFn (λ a, match a with
                  | [v] => Return (v * 2)%Z
                  | _ => Throw (user_exception ())
                  end) in
  let s := @ThreadPool Z unit 1 in
  let sched : list (@action Z unit) := [Work 0; Work 0; Work 0] in
  let s' := @after Z unit [AddJob double [12%Z]; Work 0; Work 0; Work 0] 1 in
  reachable 1 s ∧ alive s = true ∧ terminated s = false ∧
  run sched (addJob double [12%Z] s).2 = Some s' ∧
  future_get 0 (shared s') = Some (Return (Some 24%Z)) ∧
  callable_result double [12%Z] = Some (Some 24%Z).
Proof.
  intros double s sched s'.
  assert (reachable 1 s) as Hreach by (by exists []).
  split_and!; [done|reflexivity..|].
  destruct (result_propagation 1 s double [12%Z] sched s' Hreach eq_refl eq_refl eq_refl)
    as (_ & _ & Hget & _).
  apply Hget. reflexivity.
Defined.

Lemma clear_queue_discards_witness :
  let s := @after Z unit
    [AddJob (constant 1%Z) []; AddJob (constant 2%Z) []; AddJob noop []; Work 0] 1 in
  reachable 1 s ∧ alive s = true ∧ terminated s = false ∧
  queuedCount s = 2%Z ∧
  queuedCount (clearQueue s) = 0%Z ∧
  future_get 1 (shared (clearQueue s)) = Some (Throw (future_error broken_promise)) ∧
  future_get 2 (shared (clearQueue s)) = Some (Throw (future_error broken_promise)) ∧
  ∃ k s', k ≤ 2 ∧ run (replicate k (Work 0)) (clearQueue s) = Some s' ∧
          shared s' !! 0 = Some (ReadyValue 1%Z).
Proof.
  intros s.
  assert (reachable 1 s) as Hreach
    by (by exists [AddJob (constant 1%Z) []; AddJob (constant 2%Z) [];
                   AddJob noop []; Work 0]).
  split_and!; [done|reflexivity..| | | |];
    destruct (clear_queue_discards 1 s Hreach eq_refl eq_refl)
      as (_ & Hzero & _ & Hgone & Hkept & _).
  - exact Hzero.
  - apply (Hgone (Task 1 (constant 2%Z) []) [] (clearQueue s)); [by left|reflexivity].
  - apply (Hgone (Task 2 noop []) [] (clearQueue s)); [by right; left|reflexivity].
  - destruct (Hkept 0 _ (Task 0 (constant 1%Z) []) eq_refl (or_introl eq_refl))
      as (_ & _ & Hdone).
    exact (Hdone (ReadyValue 1%Z) eq_refl).
Defined.

Lemma destroyed_task_breaks_promise_witness :
  let s := @after Z unit [AddJob noop []; AddJob (constant 3%Z) []; Work 0; ClearQueue] 1 in
  reachable 1 s ∧
  future_get 1 (shared s) = Some (Throw (future_error broken_promise)) ∧
  future_get 0 (shared s) = None.
Proof.
  intros s.
  assert (reachable 1 s) as Hreach
    by (by exists [AddJob noop []; AddJob (constant 3%Z) []; Work 0; ClearQueue]).
  split_and!; [done| |reflexivity].
  destruct (destroyed_task_breaks_promise 1 s Hreach) as (Hgen & _).
  apply Hgen.
  - vm_compute. lia.
  - vm_compute. intros Hin. apply list_elem_of_singleton in Hin. discriminate.
  - intros st Hst. vm_compute in Hst. by injection Hst as <-.
Defined.

(** ** The tests of ThreadPoolTest.cpp that do not depend on timing *)

(** X7: the tests JobWithReturnValue, CallStandardFunction,
    CallFunctionPointer, CallFunctionObject and CallObjectMember read
    their expected value under every schedule.  Each constructs a pool with workers, submits
    one callable, lets the pool go out of scope and reads the future: for
    every value 1..10 of the random input and every interleaving of
    workers and destructor, the future then yields the expected value
    (a + 1 of 16, myFunc(val) = val + 1, obj() = val + 1,
    obj.getmultiple(3) = 3 * val). *)
Theorem tests_yield_expected_values {Exn : Type} (v : Z) (N : nat)
    (c : @callable Z Exn) (a : list Z) (r : Z) sched s :
  (1 ≤ v ≤ 10)%Z → 0 < N →
  (c, a, r) ∈
    [ (ValueFn (λ a, Return (nth 0 a 0 + 1)%Z), [16%Z], 17%Z);
      (ValueFn (λ a, Return (myFunc (nth 0 a 0%Z))), [v], (v + 1)%Z);
      (ValueFn (λ _, Return (MyFunctObj_call {| val := v |})), [], (v + 1)%Z);
      (ValueFn (λ a, Return (getmultiple {| val := v |} (nth 0 a 0%Z))), [3%Z],
       (3 * v)%Z) ] →
  run (AddJob c a :: sched) (ThreadPool N) = Some s →
  ClearQueue ∉ sched → owner s = Gone →
  future_get 0 (shared s) = Some (Return (Some r)) ∧ (- 2 ^ 31 ≤ r < 2 ^ 31)%Z.
Proof.
  intros Hv HN Hin Hrun Hnc Ho.
  assert (some_worker_in_loop (@ThreadPool Z Exn N)) as Hloop.
  { exists 0, (JThread Waiting false). split; [|done].
    simpl. apply lookup_replicate_2. lia. }
  destruct (submit_destroy_get N (ThreadPool N) c a sched s (inv_init N) Hloop
              eq_refl eq_refl Hrun Hnc Ho) as (x & Hx & Hget).
  simpl in Hget. rewrite Hget.
  repeat (apply elem_of_cons in Hin as [Hin|Hin];
          [injection Hin as -> -> ->; simpl in Hx; injection Hx as <-;
           unfold myFunc, MyFunctObj_call, getmultiple; simpl;
           split; [do 3 f_equal; lia|lia]|]).
  by apply elem_of_nil in Hin.
Qed.

(** ** Concrete runs for the further properties *)

Lemma closure_promise_is_fresh_witness :
  let s := @after Z unit [AddJob (constant 4%Z) []; Work 0; Work 0] 1 in
  let t : @task Z unit := Task 0 (constant 4%Z) [] in
  reachable 1 s ∧
  m_threads s !! 0 = Some (JThread (Invoking t) false) ∧
  task_body t (shared s) = Return [ReadyValue 4%Z].
Proof.
  intros s t.
  assert (reachable 1 s) as Hreach
    by (by exists [AddJob (constant 4%Z) []; Work 0; Work 0]).
  split_and!; [done|reflexivity|].
  destruct (closure_promise_is_fresh 1 s 0 _ t Hreach eq_refl) as [Hrun _].
  destruct (Hrun eq_refl) as [_ Hok].
  exact (Hok (ReadyValue 4%Z) eq_refl).
Defined.

Lemma jobs_run_at_most_once_witness :
  let sched : list (@action Z unit) :=
    [AddJob noop []; AddJob (constant 1%Z) []; Work 0; Work 1; Work 0; Work 1;
     Work 0; Work 1] in
  run sched (ThreadPool 2) = Some (after sched 2) ∧
  log invoked_by sched (ThreadPool 2) = [0; 1] ∧
  NoDup (log invoked_by sched (ThreadPool 2)).
Proof.
  intros sched. split_and!; [reflexivity..|].
  destruct (jobs_run_at_most_once 2 sched (after sched 2) eq_refl) as (_ & Hnd & _).
  exact Hnd.
Defined.

Lemma workers_hold_distinct_jobs_witness :
  let s := @after Z unit [AddJob noop []; AddJob noop []; Work 1; Work 0] 2 in
  let t : @task Z unit := Task 1 noop [] in
  let t' : @task Z unit := Task 0 noop [] in
  reachable 2 s ∧ 0 ≠ 1 ∧
  m_threads s !! 0 = Some (JThread (Dequeued t) false) ∧
  m_threads s !! 1 = Some (JThread (Dequeued t') false) ∧
  promise t ≠ promise t'.
Proof.
  intros s t t'.
  assert (reachable 2 s) as Hreach
    by (by exists [AddJob noop []; AddJob noop []; Work 1; Work 0]).
  split_and!; [done|done|reflexivity..|].
  destruct (workers_hold_distinct_jobs 2 s 0 1 _ _ t t' Hreach ltac:(done)
              eq_refl eq_refl eq_refl eq_refl) as [Hne _].
  exact Hne.
Defined.

Lemma zero_workers_never_run_witness :
  let s := @after Z unit [AddJob noop []; AddJob (constant 2%Z) []; ClearQueue;
                          AddJob noop []] 0 in
  reachable 0 s ∧ completedCount s = 0 ∧ queuedCount s = 1%Z ∧
  submittedCount s = 1 + 2.
Proof.
  intros s.
  assert (reachable 0 s) as Hreach
    by (by exists [AddJob noop []; AddJob (constant 2%Z) []; ClearQueue; AddJob noop []]).
  split_and!; [done| |reflexivity|].
  - by destruct (zero_workers_never_run s Hreach) as (_ & _ & Hc & _).
  - destruct (zero_workers_never_run s Hreach) as (_ & _ & _ & _ & _ & Hsum).
    exact Hsum.
Defined.

Lemma no_future_blocks_after_destruction_witness :
  let s := @after Z unit
    [AddJob (constant 9%Z) []; AddJob noop []; Work 0; ClearQueue; DtorEnter;
     DtorRequestStop 0; Work 0; Work 0; Work 0; Work 0; DtorJoin; DtorLeave] 1 in
  reachable 1 s ∧ owner s = Gone ∧
  future_get 0 (shared s) = Some (Return (Some 9%Z)) ∧
  future_get 1 (shared s) = Some (Throw (future_error broken_promise)) ∧
  future_get 0 (shared s) ≠ None ∧ future_get 1 (shared s) ≠ None.
Proof.
  intros s.
  assert (reachable 1 s) as Hreach
    by (by exists [AddJob (constant 9%Z) []; AddJob noop []; Work 0; ClearQueue;
                   DtorEnter; DtorRequestStop 0; Work 0; Work 0; Work 0; Work 0;
                   DtorJoin; DtorLeave]).
  split_and!; [done|reflexivity..| |];
    destruct (no_future_blocks_after_destruction 1 s Hreach eq_refl) as (Hnb & _);
    apply Hnb.
Defined.

Lemma submit_then_destroy_witness :
  let sched : list (@action Z unit) :=
    [DtorEnter; DtorRequestStop 0; Work 0; Work 0; Work 0; Work 0; Work 0;
     DtorJoin; DtorLeave] in
  let c : @callable Z unit := constant 6%Z in
  let s1 := @after Z unit (AddJob c [] :: sched) 1 in
  reachable 1 (@ThreadPool Z unit 1) ∧
  (some_worker_in_loop (@ThreadPool Z unit 1)) ∧
  run (AddJob c [] :: sched) (ThreadPool 1) = Some s1 ∧
  (ClearQueue ∉ sched) ∧ owner s1 = Gone ∧
  ∃ x, callable_result c [] = Some x ∧
       future_get 0 (shared s1) = Some (Return x).
Proof.
  intros sched c s1.
  assert (reachable 1 (@ThreadPool Z unit 1)) as Hreach by (by exists []).
  assert (some_worker_in_loop (@ThreadPool Z unit 1)) as Hloop.
  { exists 0, (JThread Waiting false). by split. }
  assert (ClearQueue ∉ sched) as Hnc.
  { unfold sched. rewrite !not_elem_of_cons. split_and!; try done.
    apply not_elem_of_nil. }
  split_and!; [done|done|reflexivity|done|reflexivity|].
  exact (submit_then_destroy 1 (ThreadPool 1) c [] sched s1
           Hreach Hloop eq_refl eq_refl eq_refl Hnc eq_refl).
Defined.

Lemma tests_yield_expected_values_witness :
  let c : @callable Z unit := ValueFn (λ a, Return (myFunc (nth 0 a 0%Z))) in
  let sched : list (@action Z unit) :=
    [Work 3; DtorEnter; Work 3; DtorRequestStop 3; Work 3; Work 3; Work 3;
     DtorJoin; DtorRequestStop 0; Work 0; DtorJoin; DtorRequestStop 1; Work 1;
     DtorJoin; DtorRequestStop 2; Work 2; DtorJoin; DtorRequestStop 4; Work 4;
     DtorJoin; DtorRequestStop 5; Work 5; DtorJoin; DtorRequestStop 6; Work 6;
     DtorJoin; DtorRequestStop 7; Work 7; DtorJoin; DtorLeave] in
  let s := @after Z unit (AddJob c [7%Z] :: sched) 8 in
  (1 ≤ 7 ≤ 10)%Z ∧ 0 < 8 ∧
  run (AddJob c [7%Z] :: sched) (ThreadPool 8) = Some s ∧
  (ClearQueue ∉ sched) ∧ owner s = Gone ∧
  future_get 0 (shared s) = Some (Return (Some (7 + 1)%Z)).
Proof.
  intros c sched s.
  assert (ClearQueue ∉ sched) as Hnc.
  { unfold sched. rewrite !not_elem_of_cons. split_and!; try done.
    apply not_elem_of_nil. }
  assert (run (AddJob c [7%Z] :: sched) (ThreadPool 8) = Some s) as Hrun
    by (vm_compute; reflexivity).
  assert (owner s = Gone) as Hgone by (vm_compute; reflexivity).
  assert ((1 ≤ 7 ≤ 10)%Z) as Hv by lia.
  assert (0 < 8) as HN by lia.
  split; [exact Hv|].
  split_and!; [exact HN|exact Hrun|exact Hnc|exact Hgone|].
  refine (proj1 (tests_yield_expected_values 7%Z 8 c [7%Z] (7 + 1)%Z sched s
                   Hv HN _ Hrun Hnc Hgone)).
  right. left.
Defined.

Lemma all_submitted_jobs_complete_witness :
  let sched1 : list (@action Z unit) :=
    [AddJob noop []; AddJob (constant 2%Z) []; Work 1; AddJob noop []] in
  let sched2 : list (@action Z unit) :=
    [DtorEnter; Work 1; Work 1; DtorRequestStop 0; Work 1; Work 0; Work 0; Work 0;
     Work 0; Work 0; Work 0; Work 0; Work 0; Work 0; DtorJoin; DtorRequestStop 1;
     Work 1; DtorJoin; DtorLeave] in
  let s0 := @after Z unit sched1 2 in
  let s1 := @after Z unit (sched1 ++ sched2) 2 in
  0 < 2 ∧ run sched1 (ThreadPool 2) = Some s0 ∧ owner s0 = Using ∧
  run sched2 s0 = Some s1 ∧ owner s1 = Gone ∧
  submittedCount s0 = 3 ∧ completedCount s1 = 3.
Proof.
  intros sched1 sched2 s0 s1.
  assert (ClearQueue ∉ sched1 ++ sched2) as Hnc.
  { unfold sched1, sched2. simpl. rewrite !not_elem_of_cons. split_and!; try done.
    apply not_elem_of_nil. }
  assert (∀ a, a ∈ sched2 → is_add a = false) as Hna.
  { intros a Ha. unfold sched2 in Ha.
    repeat (apply elem_of_cons in Ha as [->|Ha]; [done|]). by apply elem_of_nil in Ha. }
  split_and!; [lia|reflexivity..|].
  destruct (all_submitted_jobs_complete 2 sched1 sched2 s0 s1 ltac:(lia)
              eq_refl eq_refl eq_refl eq_refl Hnc Hna) as (_ & Hc & _).
  exact Hc.
Defined.

Lemma bounded_shutdown_witness :
  let s := @after Z unit
    [AddJob noop []; AddJob noop []; AddJob noop []; AddJob noop []; Work 0;
     Work 0; Work 0; Work 0; Work 0; Work 0] 1 in
  let sched : list (@action Z unit) :=
    [DtorEnter; DtorRequestStop 0; Work 0; Work 0; Work 0; DtorJoin; DtorLeave] in
  let s1 := @after Z unit
    ([AddJob noop []; AddJob noop []; AddJob noop []; AddJob noop []; Work 0;
      Work 0; Work 0; Work 0; Work 0; Work 0] ++ ClearQueue :: sched) 1 in
  reachable 1 s ∧ alive s = true ∧ terminated s = false ∧
  run (ClearQueue :: sched) s = Some s1 ∧ owner s1 = Gone ∧
  completedCount s = 1 ∧ queuedCount s = 2%Z ∧ completedCount s1 = 1 + 0 + 1.
Proof.
  intros s sched s1.
  assert (reachable 1 s) as Hreach
    by (by exists [AddJob noop []; AddJob noop []; AddJob noop []; AddJob noop [];
                   Work 0; Work 0; Work 0; Work 0; Work 0; Work 0]).
  assert (∀ a, a ∈ sched → is_add a = false) as Hna.
  { intros a Ha. unfold sched in Ha.
    repeat (apply elem_of_cons in Ha as [->|Ha]; [done|]). by apply elem_of_nil in Ha. }
  split_and!; [done|reflexivity..|].
  destruct (bounded_shutdown 1 s sched s1 Hreach eq_refl eq_refl Hna eq_refl eq_refl)
    as (_ & Hc & _).
  exact Hc.
Defined.

Lemma teardown_is_irreversible_witness :
  let s := @after Z unit [AddJob noop []; DtorEnter; DtorRequestStop 1] 2 in
  let sched : list (@action Z unit) := [Work 1; Work 1; Work 1; Work 1; Work 1] in
  let s' := @after Z unit
    ([AddJob noop []; DtorEnter; DtorRequestStop 1] ++ sched) 2 in
  run sched s = Some s' ∧
  m_threads s !! 1 = Some (JThread Waiting true) ∧ owner s' ≠ Gone ∧
  phase (owner s) ≤ phase (owner s') ∧
  ∃ th', m_threads s' !! 1 = Some th' ∧ stop_requested th' = true.
Proof.
  intros s sched s'.
  destruct (teardown_is_irreversible sched s s' eq_refl) as [Hph Hkeep].
  split_and!; [reflexivity|reflexivity|done|exact Hph|].
  destruct (Hkeep 1 _ eq_refl ltac:(done)) as (th' & Hth' & Hs & _).
  exists th'. split; [exact Hth'|by apply Hs].
Defined.

Lemma stops_come_one_at_a_time_witness :
  let s := @after Z unit [AddJob noop []; Work 0; Work 0] 2 in
  reachable 2 s ∧ owner s = Using ∧
  m_threads s !! 0 = Some (JThread (Invoking (Task 0 noop [])) false) ∧
  pc (JThread (Invoking (@Task Z unit 0 noop [])) false) ≠ Exited.
Proof.
  intros s.
  assert (reachable 2 s) as Hreach by (by exists [AddJob noop []; Work 0; Work 0]).
  split_and!; [done|reflexivity|reflexivity|].
  destruct (stops_come_one_at_a_time 2 s Hreach) as (Huse & _).
  by destruct (Huse eq_refl 0 _ eq_refl) as [_ ?].
Defined.


Lemma busy_pool_counts_witness :
  let s := @after Z unit
    [AddJob noop []; AddJob noop []; AddJob noop []; AddJob noop []; AddJob noop [];
     Work 0; Work 0; Work 1; Work 1] 2 in
  reachable 2 s ∧ (Z.of_nat 2 < 2 ^ 64)%Z ∧
  completedCount s = 0 ∧ count is_broken (shared s) = 0 ∧
  submittedCount s = 5 ∧
  activeCount s = 2%Z ∧ queuedCount s = 3%Z.
Proof.
  intros s.
  assert (reachable 2 s) as Hreach
    by (by exists [AddJob noop []; AddJob noop []; AddJob noop []; AddJob noop [];
                   AddJob noop []; Work 0; Work 0; Work 1; Work 1]).
  split_and!; [done|reflexivity..| |];
    destruct (busy_pool_counts 2 s Hreach eq_refl eq_refl eq_refl) as [Ha Hq];
    try (intros th Hth; repeat (apply elem_of_cons in Hth as [->|Hth]; [by left|]);
         by apply elem_of_nil in Hth).
  - exact Ha.
  - exact Hq.
Defined.
